(** * GoGoGo: terminal relay and session lifecycle

    A shallow embedding of the relay (web-server.ts), the PTY supervisor
    (pty.ts), the tunnel supervisor (cloudflare-tunnel.ts) and the session
    orchestrator (session.ts), with the properties of the specification
    stated and proved over it.

    The development has three parts: the model, one module per source
    file; the vocabulary of the specification; the proofs.

    Conventions.
    - Module-level [let] variables of a TypeScript file become the fields of
      one [State] record per module; every exported function becomes a
      function from states to states (plus the effects it issues), and
      every handler the file installs becomes such a function too.
    - JavaScript numbers are modelled by [Z].  Every number computed by the
      modelled code is an integer (a counter, a sequence number, a terminal
      dimension, a millisecond clock) far below 2^53, the range in which
      IEEE doubles are exact.
    - JavaScript strings are lists of UTF-16 code units. *)

From Stdlib Require Import ZArith NArith Lia List Bool Ascii String.
From stdpp Require Import prelude gmap.

Local Open Scope Z_scope.

(** ** JavaScript strings *)

Definition code_unit := N.
Definition jsstring := list code_unit.

(** Literal ASCII text as a JavaScript string. *)
Definition str (s : string) : jsstring :=
  map N_of_ascii (list_ascii_of_string s).

(** [a || b] on values whose only falsy inhabitant is the empty string. *)
Definition str_or (a : option jsstring) (b : jsstring) : jsstring :=
  match a with
  | Some (c :: s) => c :: s
  | _ => b
  end.

(** [a || b] on optional numbers: [undefined] and [0] are falsy. *)
Definition num_or (a : option Z) (b : Z) : Z :=
  match a with
  | Some v => if v =? 0 then b else v
  | None => b
  end.

(** ** Regular expressions of the shape used by the relay

    [CLEAR_SCREEN_RE] is an alternation of fixed sequences of character
    classes.  A [Regex] is the list of its alternatives, tried in order at
    every position as the backtracking matcher of JavaScript does. *)

Module Regex.

Definition CharClass := code_unit → bool.
Definition Alt := list CharClass.
Definition t := list Alt.

Definition lit (c : code_unit) : CharClass := N.eqb c.
Definition one_of (cs : list code_unit) : CharClass :=
  fun x => existsb (N.eqb x) cs.

(** Does the alternative match a prefix of [s]? *)
Fixpoint match_alt (p : Alt) (s : jsstring) : bool :=
  match p, s with
  | [], _ => true
  | _ :: _, [] => false
  | c :: p', x :: s' => c x && match_alt p' s'
  end.

(** Length of the match anchored at the head of [s], if any. *)
Fixpoint match_here (re : t) (s : jsstring) : option nat :=
  match re with
  | [] => None
  | p :: re' => if match_alt p s then Some (length p) else match_here re' s
  end.

(** [re.test(s)] for a regex without the [g] flag. *)
Fixpoint test (re : t) (s : jsstring) : bool :=
  match match_here re s with
  | Some _ => true
  | None => match s with
            | [] => false
            | _ :: s' => test re s'
            end
  end.

(** One element of [s.matchAll(re)]: [index] and the length of [m[0]]. *)
Record Match := { index : nat; mlen : nat }.

(** [s.matchAll(re)] for a global regex.  [i] is the position of the head
    of [s] in the whole subject; [skip] is how far [lastIndex] is ahead of
    it (the scan resumes at the end of the previous match). *)
Fixpoint matchAll_from (re : t) (i skip : nat) (s : jsstring) : list Match :=
  match s with
  | [] => []
  | _ :: s' =>
      match skip with
      | S k => matchAll_from re (S i) k s'
      | O =>
          match match_here re s with
          | Some len =>
              {| index := i; mlen := len |} :: matchAll_from re (S i) (pred len) s'
          | None => matchAll_from re (S i) 0 s'
          end
      end
  end.

Definition matchAll (re : t) (s : jsstring) : list Match :=
  matchAll_from re 0 0 s.

End Regex.


(** [s.slice(n)] for a string and [0 <= n]. *)
Definition slice_from (n : nat) (s : jsstring) : jsstring := drop n s.

(** ** Callbacks

    The callback arrays of pty.ts and cloudflare-tunnel.ts hold closures.
    The repository registers exactly these five; the arrays of the model
    hold their names, and the code of each one is the function of the model
    given beside it. *)
Inductive Callback :=
| RelayOutput          (* web-server.ts, onPTYData: [WebServer.onPTYData_handler] *)
| RelayExit            (* web-server.ts, onPTYExit: [WebServer.onPTYExit_handler] *)
| RelayResize          (* web-server.ts, onLocalTerminalResize: [WebServer.applyMinSize] *)
| SessionExit          (* session.ts, onPTYExit: [Session.cleanup] *)
| SessionTunnelCrash.  (* session.ts, onTunnelCrash: logs a warning *)

(** * pty.ts: the PTY supervisor *)

Module Pty.

Record PTYOptions := {
  opt_cols : option Z;
  opt_rows : option Z;
  opt_command : option jsstring;
  opt_args : option (list jsstring);
  opt_cwd : option jsstring;
}.

(** What [spawnPTY] reads from the Node [process] object, and whether the
    [pty.spawn] call of node-pty raises for this attempt. *)
Record Process := {
  env_SHELL : option jsstring;
  stdout_columns : option Z;
  stdout_rows : option Z;
  process_cwd : jsstring;
  spawn_raises : bool;
}.

(** A node-pty handle.  Handles are named by the position of their spawn
    call in the trace of calls, so two handles never share a [pid].
    [pty_cols] and [pty_rows] are the size last requested for the handle,
    at its spawn or by a resize; what node-pty makes of a request is its
    own business and no part of the repository. *)
Record IPty := {
  pid : nat;
  pty_command : jsstring;
  pty_args : list jsstring;
  pty_cols : Z;
  pty_rows : Z;
  pty_cwd : jsstring;
}.

(** The calls issued to node-pty, as the repository's code issues them. *)
Inductive Call :=
| CallSpawn (h : IPty)
| CallWrite (p : nat) (data : jsstring)
| CallResize (p : nat) (cols rows : Z)
| CallKill (p : nat).

Record State := {
  ptyProcess : option IPty;
  dataCallbacks : list Callback;
  exitCallbacks : list Callback;
  resizeCallbacks : list Callback;
  stdinListener : bool;
  resizeListener : bool;
  localCols : Z;
  localRows : Z;
  calls : list Call;            (* oldest first *)
}.

Definition initial : State := {|
  ptyProcess := None;
  dataCallbacks := [];
  exitCallbacks := [];
  resizeCallbacks := [];
  stdinListener := false;
  resizeListener := false;
  localCols := 80;
  localRows := 24;
  calls := [];
|}.

(** A function of pty.ts either returns or lets an exception of node-pty
    escape; both leave a state behind. *)
Inductive Outcome (A : Type) :=
| Return (a : A) (st : State)
| Throw (st : State).
Arguments Return {A} a st.
Arguments Throw {A} st.

Definition getLocalSize (st : State) : Z * Z := (localCols st, localRows st).

Definition spawnPTY (proc : Process) (options : PTYOptions) (st : State)
  : Outcome IPty :=
  let shell := str_or (env_SHELL proc) (str "/bin/sh") in
  let command := str_or (opt_command options) shell in
  let args := default [] (opt_args options) in
  let lCols := num_or (opt_cols options) (num_or (stdout_columns proc) 80) in
  let lRows := num_or (opt_rows options) (num_or (stdout_rows proc) 24) in
  let cwd := str_or (opt_cwd options) (process_cwd proc) in
  if spawn_raises proc then
    Throw {| ptyProcess := ptyProcess st;
             dataCallbacks := dataCallbacks st;
             exitCallbacks := exitCallbacks st;
             resizeCallbacks := resizeCallbacks st;
             stdinListener := stdinListener st;
             resizeListener := resizeListener st;
             localCols := lCols;
             localRows := lRows;
             calls := calls st |}
  else
    let h := {| pid := length (calls st);
                pty_command := command;
                pty_args := args;
                pty_cols := lCols;
                pty_rows := lRows;
                pty_cwd := cwd |} in
    Return h {| ptyProcess := Some h;
                dataCallbacks := dataCallbacks st;
                exitCallbacks := exitCallbacks st;
                resizeCallbacks := resizeCallbacks st;
                stdinListener := true;
                resizeListener := true;
                localCols := lCols;
                localRows := lRows;
                calls := calls st ++ [CallSpawn h] |}.

Definition set_pty (p : option IPty) (c : list Call) (st : State) : State :=
  {| ptyProcess := p;
     dataCallbacks := dataCallbacks st;
     exitCallbacks := exitCallbacks st;
     resizeCallbacks := resizeCallbacks st;
     stdinListener := stdinListener st;
     resizeListener := resizeListener st;
     localCols := localCols st;
     localRows := localRows st;
     calls := c |}.

Definition writeToPTY (data : jsstring) (st : State) : State :=
  match ptyProcess st with
  | Some h => set_pty (Some h) (calls st ++ [CallWrite (pid h) data]) st
  | None => st
  end.

(** [ptyProcess.resize(cols, rows)]: the call goes to node-pty, and the
    handle records the size requested. *)
Definition IPty_resize (cols rows : Z) (h : IPty) : IPty :=
  {| pid := pid h;
     pty_command := pty_command h;
     pty_args := pty_args h;
     pty_cols := cols;
     pty_rows := rows;
     pty_cwd := pty_cwd h |}.

Definition resizePTY (cols rows : Z) (st : State) : State :=
  match ptyProcess st with
  | Some h =>
      set_pty (Some (IPty_resize cols rows h))
              (calls st ++ [CallResize (pid h) cols rows]) st
  | None => st
  end.

Definition killPTY (st : State) : State :=
  let '(p, c) :=
    match ptyProcess st with
    | Some h => (None, calls st ++ [CallKill (pid h)])
    | None => (None, calls st)
    end in
  {| ptyProcess := p;
     dataCallbacks := dataCallbacks st;
     exitCallbacks := exitCallbacks st;
     resizeCallbacks := resizeCallbacks st;
     stdinListener := false;
     resizeListener := false;
     localCols := localCols st;
     localRows := localRows st;
     calls := c |}.

Definition set_callbacks (d e r : list Callback) (st : State) : State :=
  {| ptyProcess := ptyProcess st;
     dataCallbacks := d;
     exitCallbacks := e;
     resizeCallbacks := r;
     stdinListener := stdinListener st;
     resizeListener := resizeListener st;
     localCols := localCols st;
     localRows := localRows st;
     calls := calls st |}.

Definition onPTYData (cb : Callback) (st : State) : State :=
  set_callbacks (dataCallbacks st ++ [cb]) (exitCallbacks st) (resizeCallbacks st) st.

Definition onPTYExit (cb : Callback) (st : State) : State :=
  set_callbacks (dataCallbacks st) (exitCallbacks st ++ [cb]) (resizeCallbacks st) st.

Definition onLocalTerminalResize (cb : Callback) (st : State) : State :=
  set_callbacks (dataCallbacks st) (exitCallbacks st) (resizeCallbacks st ++ [cb]) st.

Definition clearCallbacks (st : State) : State := set_callbacks [] [] [] st.

(** The [resize] listener installed on [process.stdout] by [spawnPTY]
    (it does nothing while it is not installed): the new local size is
    recorded when both dimensions are truthy.  The result tells whether
    the resize callbacks are to be run. *)
Definition on_stdout_resize (columns rows : option Z) (st : State)
  : State * bool :=
  if resizeListener st
     && negb (num_or columns 0 =? 0) && negb (num_or rows 0 =? 0) then
    ({| ptyProcess := ptyProcess st;
        dataCallbacks := dataCallbacks st;
        exitCallbacks := exitCallbacks st;
        resizeCallbacks := resizeCallbacks st;
        stdinListener := stdinListener st;
        resizeListener := resizeListener st;
        localCols := num_or columns 0;
        localRows := num_or rows 0;
        calls := calls st |}, true)
  else (st, false).

(** The [onExit] handler of a handle, after its exit callbacks have run:
    the module variable is cleared. *)
Definition on_exit_clear (st : State) : State := set_pty None (calls st) st.

(** A PTY is live when the module holds a handle. *)
Definition live (st : State) : bool :=
  match ptyProcess st with Some _ => true | None => false end.

(** The resize calls in a trace. *)
Definition resize_calls (c : list Call) : list (nat * Z * Z) :=
  omap (fun x => match x with
                 | CallResize p cols rows => Some (p, cols, rows)
                 | _ => None
                 end) c.

End Pty.

(** * web-server.ts: the relay *)

Module WebServer.

(** A WebSocket, by identity. *)
Definition conn := nat.

Record BufferEntry := { seq : Z; data : jsstring }.

Definition MAX_BUFFER_SIZE : nat := 5000.
Definition BUFFER_TRIM_SIZE : nat := 3000.
Definition MAX_CONNECTIONS : nat := 10.
Definition MSG_RATE_WINDOW_MS : Z := 1000.
Definition MSG_RATE_LIMIT : Z := 100.

Definition ESC : code_unit := 27%N.

(** [/\x1b\[[23]J|\x1bc/] *)
Definition CLEAR_SCREEN_RE : Regex.t :=
  [ [Regex.lit ESC; Regex.lit 91; Regex.one_of [50; 51]; Regex.lit 74];
    [Regex.lit ESC; Regex.lit 99] ]%N.

(** The [clientInfo] object of a connection.  The identifier
    [`client-${Date.now()}-${++clientIdCounter}`] is kept as its two
    numbers. *)
Record ClientInfo := {
  cols : Z;
  rows : Z;
  id : Z * Z;
  synced : bool;
}.

(** The variables captured by the handlers of one accepted connection. *)
Record Closure := {
  clientInfo : ClientInfo;
  msgCount : Z;
  msgWindowStart : Z;
}.

(** [connectedClients] maps a socket to the [clientInfo] object that the
    socket's handlers also hold, so an assignment to [clientInfo.cols] is
    seen through the map.  The model keeps each object once, in [closures],
    and keeps the key set of the map in [connectedClients]. *)
Record State := {
  connectedClients : gset conn;
  closures : gmap conn Closure;
  serverToken : jsstring;
  outputBuffer : list BufferEntry;
  nextSeq : Z;
  clientIdCounter : Z;
}.

Definition initial : State := {|
  connectedClients := ∅;
  closures := ∅;
  serverToken := [];
  outputBuffer := [];
  nextSeq := 1;
  clientIdCounter := 0;
|}.

(** The entries of the [connectedClients] map. *)
Definition clients (st : State) : gmap conn ClientInfo :=
  filter (fun kv => kv.1 ∈ connectedClients st) (clientInfo <$> closures st).

Inductive ServerMsg :=
| History (chunks : list jsstring) (lastSeq : Z)
| HistoryDelta (chunks : list jsstring) (lastSeq : Z)
| Output (sq : Z) (chunk : jsstring)
| Exit (code : Z).

(** What a handler does to the outside: frames sent, sockets closed, a
    line on the error console, and the image branch of the message
    handler (lines 341-364), whose file-system work is not modelled. *)
Inductive Effect :=
| Send (ws : conn) (m : ServerMsg)
| WsClose (ws : conn) (code : option Z)
| LogInvalid
| ImageBranch (ws : conn).

(** A client frame after [JSON.parse] and the handler's own type tests:
    - [MsgSync (Some n)] when [typeof msg.lastSeq === 'number'];
    - [MsgInput (Some s)] when [typeof msg.data === 'string'];
    - [MsgResize c r] with [Some] where [Number(...)] is an integer;
    - [MsgImage true] when [typeof msg.data === 'string'];
    - [MsgOther] for any other parsed value;
    - [MsgUnparsable] when [JSON.parse] raises. *)
Inductive ClientMsg :=
| MsgSync (lastSeq : option Z)
| MsgInput (text : option jsstring)
| MsgResize (c r : option Z)
| MsgImage (has_data : bool)
| MsgOther
| MsgUnparsable.

(** *** Size arbitration *)

Definition calculateMinSize (local : Z * Z) (cl : gmap conn ClientInfo)
  : Z * Z :=
  map_fold (fun _ ci (m : Z * Z) =>
              if (0 <? cols ci) && (0 <? rows ci)
              then (Z.min m.1 (cols ci), Z.min m.2 (rows ci))
              else m)
           local cl.

Definition applyMinSize (st : State) (pty : Pty.State) : Pty.State :=
  if decide (size (clients st) = 0%nat) then
    let local := Pty.getLocalSize pty in
    Pty.resizePTY local.1 local.2 pty
  else
    let m := calculateMinSize (Pty.getLocalSize pty) (clients st) in
    if (0 <? m.1) && (0 <? m.2) then Pty.resizePTY m.1 m.2 pty else pty.

(** *** Token comparison *)

Definition byte := N.

Definition utf8_encode (cp : N) : list byte :=
  (if cp <? 128 then [cp]
   else if cp <? 2048 then [192 + cp / 64; 128 + cp mod 64]
   else if cp <? 65536 then
     [224 + cp / 4096; 128 + (cp / 64) mod 64; 128 + cp mod 64]
   else
     [240 + cp / 262144; 128 + (cp / 4096) mod 64;
      128 + (cp / 64) mod 64; 128 + cp mod 64])%N.

Definition is_high_surrogate (u : code_unit) : bool :=
  ((55296 <=? u) && (u <=? 56319))%N.
Definition is_low_surrogate (u : code_unit) : bool :=
  ((56320 <=? u) && (u <=? 57343))%N.

(** The UTF-8 encoding of a string, one list of bytes per character; a
    surrogate without its partner is encoded as U+FFFD. *)
Fixpoint utf8_chars (s : jsstring) : list (list byte) :=
  match s with
  | [] => []
  | u :: s' =>
      if is_high_surrogate u then
        match s' with
        | l :: s'' =>
            if is_low_surrogate l
            then utf8_encode (65536 + (u - 55296) * 1024 + (l - 56320))%N
                   :: utf8_chars s''
            else utf8_encode 65533%N :: utf8_chars s'
        | [] => [utf8_encode 65533%N]
        end
      else if is_low_surrogate u then utf8_encode 65533%N :: utf8_chars s'
      else utf8_encode u :: utf8_chars s'
  end.

(** The bytes [buf.write(s)] stores: whole characters while they fit. *)
Fixpoint utf8_fit (room : nat) (cs : list (list byte)) : list byte :=
  match cs with
  | [] => []
  | c :: cs' =>
      if (length c <=? room)%nat
      then c ++ utf8_fit (room - length c) cs'
      else []
  end.

Definition Buffer_alloc (n : nat) : list byte := replicate n 0%N.

Definition Buffer_write (buf : list byte) (s : jsstring) : list byte :=
  let w := utf8_fit (length buf) (utf8_chars s) in
  w ++ drop (length w) buf.

(** [crypto.timingSafeEqual]: raises ([None]) on operands of different
    byte length. *)
Definition timingSafeEqual (a b : list byte) : option bool :=
  if decide (length a = length b)
  then Some (bool_decide (a = b))
  else None.

Definition safeEqual (a b : jsstring) : option bool :=
  let maxLen := (length a `max` (length b `max` 1))%nat in
  let aBuf := Buffer_write (Buffer_alloc maxLen) a in
  let bBuf := Buffer_write (Buffer_alloc maxLen) b in
  match timingSafeEqual aBuf bBuf with
  | Some m => Some (m && bool_decide (length a = length b))
  | None => None
  end.

(** A string is truthy when it is not empty. *)
Definition truthy (s : option jsstring) : bool :=
  match s with Some (_ :: _) => true | _ => false end.

(** [isAuthenticated]: [req.cookies.auth && safeEqual(req.cookies.auth,
    serverToken)]. *)
Definition isAuthenticated (cookie_auth : option jsstring) (st : State)
  : option bool :=
  if truthy cookie_auth
  then safeEqual (default [] cookie_auth) (serverToken st)
  else Some false.

Inductive AuthResult := SetCookieAndRedirect | Next | Forbidden.

(** [requireAuth], on the two credentials a request can carry. *)
Definition requireAuth (queryToken cookie_auth : option jsstring) (st : State)
  : option AuthResult :=
  q ← (if truthy queryToken
       then safeEqual (default [] queryToken) (serverToken st)
       else Some false);
  if q : bool then Some SetCookieAndRedirect
  else c ← isAuthenticated cookie_auth st;
       Some (if c : bool then Next else Forbidden).

(** The token test of [verifyClient], after the origin test has passed;
    [cookie] is the text after [auth=] of the first such cookie. *)
Definition verifyClient_cookie (cookie : option jsstring) (st : State)
  : option bool :=
  match cookie with
  | Some c => safeEqual c (serverToken st)
  | None => Some false
  end.

(** *** Connections *)

Definition set_clients (k : gset conn) (c : gmap conn Closure)
    (counter : Z) (st : State) : State :=
  {| connectedClients := k;
     closures := c;
     serverToken := serverToken st;
     outputBuffer := outputBuffer st;
     nextSeq := nextSeq st;
     clientIdCounter := counter |}.

(** The [connection] handler.  [now_id] and [now] are the two readings of
    [Date.now()], in [generateClientId] and for [msgWindowStart]. *)
Definition on_connection (now_id now : Z) (ws : conn) (st : State)
  : State * list Effect :=
  if decide (MAX_CONNECTIONS ≤ size (clients st))%nat then
    (st, [WsClose ws (Some 1013)])
  else
    let counter := clientIdCounter st + 1 in
    let info := {| cols := 80; rows := 24; id := (now_id, counter);
                   synced := false |} in
    let cl := {| clientInfo := info; msgCount := 0; msgWindowStart := now |} in
    (set_clients ({[ws]} ∪ connectedClients st) (<[ws := cl]> (closures st))
                 counter st, []).

(** The [error] handler of a socket. *)
Definition on_ws_error (ws : conn) (st : State) : State :=
  match closures st !! ws with
  | Some _ =>
      set_clients (connectedClients st ∖ {[ws]}) (closures st)
                  (clientIdCounter st) st
  | None => st
  end.

(** The [close] handler of a socket. *)
Definition on_ws_close (ws : conn) (st : State) (pty : Pty.State)
  : State * Pty.State :=
  match closures st !! ws with
  | Some _ =>
      let st' := set_clients (connectedClients st ∖ {[ws]}) (closures st)
                             (clientIdCounter st) st in
      (st', applyMinSize st' pty)
  | None => (st, pty)
  end.

(** *** The rate limit (lines 286-294)

    The result tells whether the message goes on to be parsed. *)
Definition rate_check (now : Z) (c : Closure) : Closure * bool :=
  let c1 :=
    if MSG_RATE_WINDOW_MS <? now - msgWindowStart c
    then {| clientInfo := clientInfo c; msgCount := 0; msgWindowStart := now |}
    else c in
  let n := msgCount c1 + 1 in
  ({| clientInfo := clientInfo c1; msgCount := n;
      msgWindowStart := msgWindowStart c1 |},
   negb (MSG_RATE_LIMIT <? n)).

(** *** The sync handshake (lines 302-323) *)

Definition sync_reply (buffer : list BufferEntry) (lastSeq : Z)
  : option ServerMsg :=
  match buffer with
  | [] => None
  | first :: _ =>
      if (0 <? lastSeq) && (seq first <=? lastSeq) then
        let delta := filter (fun e => lastSeq < seq e) buffer in
        match delta with
        | [] => None
        | d :: _ => Some (HistoryDelta (data <$> delta) (seq (List.last delta d)))
        end
      else
        Some (History (data <$> buffer) (seq (List.last buffer first)))
  end.

Definition set_info (i : ClientInfo) (c : Closure) : Closure :=
  {| clientInfo := i; msgCount := msgCount c;
     msgWindowStart := msgWindowStart c |}.

Definition set_synced (i : ClientInfo) : ClientInfo :=
  {| cols := cols i; rows := rows i; id := id i; synced := true |}.

Definition set_size (c r : Z) (i : ClientInfo) : ClientInfo :=
  {| cols := c; rows := r; id := id i; synced := synced i |}.

(** The body of the message handler after the rate limit, for the
    connection whose closure is [c]. *)
Definition dispatch (ws : conn) (msg : ClientMsg) (c : Closure)
    (st : State) (pty : Pty.State) : State * Pty.State * list Effect :=
  let put c' := set_clients (connectedClients st) (<[ws := c']> (closures st))
                            (clientIdCounter st) st in
  match msg with
  | MsgUnparsable => (put c, pty, [LogInvalid])
  | MsgSync lastSeq =>
      if synced (clientInfo c) then (put c, pty, [])
      else
        let c' := set_info (set_synced (clientInfo c)) c in
        (put c', pty,
         match sync_reply (outputBuffer st) (default 0 lastSeq) with
         | Some m => [Send ws m]
         | None => []
         end)
  | MsgInput (Some text) => (put c, Pty.writeToPTY text pty, [])
  | MsgInput None => (put c, pty, [])
  | MsgResize (Some cs) (Some rs) =>
      if (0 <? cs) && (cs <=? 500) && (0 <? rs) && (rs <=? 200) then
        let st' := put (set_info (set_size cs rs (clientInfo c)) c) in
        (st', applyMinSize st' pty, [])
      else (put c, pty, [])
  | MsgResize _ _ => (put c, pty, [])
  | MsgImage true => (put c, pty, [ImageBranch ws])
  | MsgImage false => (put c, pty, [])
  | MsgOther => (put c, pty, [])
  end.

(** The [message] handler of a socket.  A socket refused by
    [on_connection] has no handler, so its frames do nothing. *)
Definition on_message (now : Z) (ws : conn) (msg : ClientMsg)
    (st : State) (pty : Pty.State) : State * Pty.State * list Effect :=
  match closures st !! ws with
  | None => (st, pty, [])
  | Some c =>
      let '(c', pass) := rate_check now c in
      if pass then dispatch ws msg c' st pty
      else
        (set_clients (connectedClients st) (<[ws := c']> (closures st))
                     (clientIdCounter st) st, pty, [])
  end.

(** *** The output log (lines 383-403) *)

Definition set_log (b : list BufferEntry) (n : Z) (st : State) : State :=
  {| connectedClients := connectedClients st;
     closures := closures st;
     serverToken := serverToken st;
     outputBuffer := b;
     nextSeq := n;
     clientIdCounter := clientIdCounter st |}.

(** The log after a chunk has been numbered [sq] and pushed. *)
Definition retain (sq : Z) (chunk : jsstring) (pushed : list BufferEntry)
  : option (list BufferEntry) :=
  if Regex.test CLEAR_SCREEN_RE chunk then
    match last (Regex.matchAll CLEAR_SCREEN_RE chunk) with
    | Some m =>
        let after := slice_from (Regex.index m + Regex.mlen m) chunk in
        Some (match after with
              | [] => []
              | _ :: _ => [{| seq := sq; data := after |}]
              end)
    | None => None
    end
  else if decide (MAX_BUFFER_SIZE < length pushed)%nat then
    Some (drop (length pushed - BUFFER_TRIM_SIZE) pushed)
  else Some pushed.

(** The callback registered with [onPTYData].  [is_open ws] is
    [ws.readyState === WebSocket.OPEN].  Reading [last.index] of a missing
    match would raise before the broadcast and leave the pushed record in
    place; [retain_total] shows that this does not happen. *)
Definition onPTYData_handler (is_open : conn → bool) (chunk : jsstring)
    (st : State) : State * list Effect :=
  let sq := nextSeq st in
  let pushed := outputBuffer st ++ [{| seq := sq; data := chunk |}] in
  match retain sq chunk pushed with
  | Some b =>
      (set_log b (sq + 1) st,
       (fun kv => Send kv.1 (Output sq chunk))
         <$> filter (fun kv => is_open kv.1 = true) (map_to_list (clients st)))
  | None => (set_log pushed (sq + 1) st, [])
  end.

(** The callback registered with [onPTYExit]. *)
Definition onPTYExit_handler (is_open : conn → bool) (code : Z) (st : State)
  : list Effect :=
  (fun kv => Send kv.1 (Exit code))
    <$> filter (fun kv => is_open kv.1 = true) (map_to_list (clients st)).

(** *** Start and stop *)

Definition startWebServer (token : jsstring) (st : State) (pty : Pty.State)
  : State * Pty.State :=
  ({| connectedClients := connectedClients st;
      closures := closures st;
      serverToken := token;
      outputBuffer := outputBuffer st;
      nextSeq := nextSeq st;
      clientIdCounter := clientIdCounter st |},
   Pty.onPTYExit RelayExit
     (Pty.onPTYData RelayOutput (Pty.onLocalTerminalResize RelayResize pty))).

Definition stopWebServer (st : State) (pty : Pty.State)
  : State * Pty.State * list Effect :=
  ({| connectedClients := ∅;
      closures := closures st;
      serverToken := [];
      outputBuffer := [];
      nextSeq := 1;
      clientIdCounter := 0 |},
   Pty.clearCallbacks pty,
   (fun ws => WsClose ws None) <$> elements (dom (closures st))).

(** *** The relay as a transition system

    Every handler the relay installs, as an event.  [is_open] is the
    [readyState] test of the sockets at the time of a broadcast.  The
    events of the PTY stand for the callbacks registered by
    [startWebServer]. *)
Inductive Event :=
| EvConnection (now_id now : Z) (ws : conn)
| EvMessage (now : Z) (ws : conn) (msg : ClientMsg)
| EvWsError (ws : conn)
| EvWsClose (ws : conn)
| EvPtyData (is_open : conn → bool) (chunk : jsstring)
| EvPtyExit (is_open : conn → bool) (code : Z)
| EvLocalResize
| EvStop.

Definition step (e : Event) (s : State * Pty.State)
  : State * Pty.State * list Effect :=
  let '(st, pty) := s in
  match e with
  | EvConnection now_id now ws =>
      let '(st', fx) := on_connection now_id now ws st in (st', pty, fx)
  | EvMessage now ws msg => on_message now ws msg st pty
  | EvWsError ws => (on_ws_error ws st, pty, [])
  | EvWsClose ws => (on_ws_close ws st pty, [])
  | EvPtyData is_open chunk =>
      let '(st', fx) := onPTYData_handler is_open chunk st in (st', pty, fx)
  | EvPtyExit is_open code => (st, pty, onPTYExit_handler is_open code st)
  | EvLocalResize => (st, applyMinSize st pty, [])
  | EvStop => stopWebServer st pty
  end.

Fixpoint run (es : list Event) (s : State * Pty.State)
  : State * Pty.State * list Effect :=
  match es with
  | [] => (s, [])
  | e :: es' =>
      let '(s1, fx1) := step e s in
      let '(s2, fx2) := run es' s1 in
      (s2, fx1 ++ fx2)
  end.

(** The relay state after the events, started from [initial]. *)
Definition after (es : list Event) (pty : Pty.State) : State :=
  (run es (initial, pty)).1.1.

(** *** The terminal-context API (lines 186-191) *)

Definition CONTEXT_API_ENTRIES : nat := 50.

(** [a.slice(-n)] for a positive [n]: the last [n] elements, or all of
    them when there are fewer. *)
Definition slice_last {A} (n : nat) (a : list A) : list A :=
  drop (length a - n) a.

Record TerminalContext := {
  recentOutput : list jsstring;
  bufferLength : nat;
}.

(** The body of the reply of [GET /api/terminal-context]. *)
Definition terminal_context (st : State) : TerminalContext := {|
  recentOutput := data <$> slice_last CONTEXT_API_ENTRIES (outputBuffer st);
  bufferLength := length (outputBuffer st);
|}.

End WebServer.

(** * cloudflare-tunnel.ts: the tunnel supervisor *)

Module Tunnel.

(** A [ChildProcess], by identity. *)
Definition proc := nat.

(** The variables captured by the handlers of one cloudflared process:
    [urlFound], and whether the 30 s timer is still pending. *)
Record Closure := {
  urlFound : bool;
  timerPending : bool;
}.

Record State := {
  tunnelProcess : option proc;
  tunnelUrl : option jsstring;
  crashCallbacks : list Callback;
  intentionalStop : bool;
  handlers : gmap proc Closure;
}.

Definition initial : State := {|
  tunnelProcess := None;
  tunnelUrl := None;
  crashCallbacks := [];
  intentionalStop := false;
  handlers := ∅;
|}.

Inductive Rejection :=
| TimeoutWaitingForUrl
| SpawnFailed
| ExitedWithCode (code : option Z).

(** What the supervisor does to the outside: settle the promise of
    [startTunnel], signal the subprocess, call a crash callback. *)
Inductive Effect :=
| Resolve (p : proc) (url : jsstring)
| Reject (p : proc) (why : Rejection)
| Kill (p : proc)
| Crash (cb : Callback) (code : option Z).

(** [startTunnelProcess]: the spawned process is named by the number of
    processes started before it. *)
Definition startTunnelProcess (st : State) : State :=
  let p := size (handlers st) in
  {| tunnelProcess := Some p;
     tunnelUrl := tunnelUrl st;
     crashCallbacks := crashCallbacks st;
     intentionalStop := intentionalStop st;
     handlers := <[p := {| urlFound := false; timerPending := true |}]>
                   (handlers st) |}.

Definition stopTunnel (st : State) : State * list Effect :=
  match tunnelProcess st with
  | Some p =>
      ({| tunnelProcess := None;
          tunnelUrl := None;
          crashCallbacks := [];
          intentionalStop := true;
          handlers := handlers st |}, [Kill p])
  | None =>
      ({| tunnelProcess := None;
          tunnelUrl := tunnelUrl st;
          crashCallbacks := [];
          intentionalStop := intentionalStop st;
          handlers := handlers st |}, [])
  end.

Definition onTunnelCrash (cb : Callback) (st : State) : State :=
  {| tunnelProcess := tunnelProcess st;
     tunnelUrl := tunnelUrl st;
     crashCallbacks := crashCallbacks st ++ [cb];
     intentionalStop := intentionalStop st;
     handlers := handlers st |}.

Definition set_closure (p : proc) (c : Closure) (st : State) : State :=
  {| tunnelProcess := tunnelProcess st;
     tunnelUrl := tunnelUrl st;
     crashCallbacks := crashCallbacks st;
     intentionalStop := intentionalStop st;
     handlers := <[p := c]> (handlers st) |}.

(** The [data] handlers of stderr and stdout.  [urlMatch] is the result
    of [output.match(/https:\/\/[a-z0-9-]+\.trycloudflare\.com/)]. *)
Definition on_output (p : proc) (urlMatch : option jsstring) (st : State)
  : State * list Effect :=
  match handlers st !! p, urlMatch with
  | Some c, Some url =>
      if urlFound c then (st, [])
      else
        ({| tunnelProcess := tunnelProcess st;
            tunnelUrl := Some url;
            crashCallbacks := crashCallbacks st;
            intentionalStop := intentionalStop st;
            handlers := <[p := {| urlFound := true; timerPending := false |}]>
                          (handlers st) |}, [Resolve p url])
  | _, _ => (st, [])
  end.

(** The 30 s timer. *)
Definition on_timeout (p : proc) (st : State) : State * list Effect :=
  match handlers st !! p with
  | Some c =>
      if timerPending c then
        let st1 := set_closure p {| urlFound := urlFound c;
                                    timerPending := false |} st in
        if urlFound c then (st1, [])
        else
          let '(st2, fx) := stopTunnel st1 in
          (st2, Reject p TimeoutWaitingForUrl :: fx)
      else (st, [])
  | None => (st, [])
  end.

(** The [error] handler of the subprocess. *)
Definition on_error (p : proc) (st : State) : State * list Effect :=
  match handlers st !! p with
  | Some c =>
      (set_closure p {| urlFound := urlFound c; timerPending := false |} st,
       [Reject p SpawnFailed])
  | None => (st, [])
  end.

(** The [close] handler of the subprocess (lines 89-102). *)
Definition on_close (p : proc) (code : option Z) (st : State)
  : State * list Effect :=
  match handlers st !! p with
  | Some c =>
      let fx :=
        if negb (urlFound c) then [Reject p (ExitedWithCode code)]
        else if negb (intentionalStop st)
             then (fun cb => Crash cb code) <$> crashCallbacks st
             else [] in
      ({| tunnelProcess := None;
          tunnelUrl := None;
          crashCallbacks := crashCallbacks st;
          intentionalStop := false;
          handlers :=
            <[p := {| urlFound := urlFound c;
                      timerPending := if negb (urlFound c) then false
                                      else timerPending c |}]>
              (handlers st) |}, fx)
  | None => (st, [])
  end.

(** Everything that can happen to the supervisor. *)
Inductive Event :=
| EvStart
| EvOutput (p : proc) (urlMatch : option jsstring)
| EvTimeout (p : proc)
| EvError (p : proc)
| EvClose (p : proc) (code : option Z)
| EvStop
| EvOnCrash (cb : Callback).

Definition step (e : Event) (st : State) : State * list Effect :=
  match e with
  | EvStart => (startTunnelProcess st, [])
  | EvOutput p m => on_output p m st
  | EvTimeout p => on_timeout p st
  | EvError p => on_error p st
  | EvClose p code => on_close p code st
  | EvStop => stopTunnel st
  | EvOnCrash cb => (onTunnelCrash cb st, [])
  end.

(** The effects of a sequence of events, in order. *)
Fixpoint run (es : list Event) (st : State) : State * list Effect :=
  match es with
  | [] => (st, [])
  | e :: es' =>
      let '(st1, fx1) := step e st in
      let '(st2, fx2) := run es' st1 in
      (st2, fx1 ++ fx2)
  end.

(** The crash-callback invocations among some effects. *)
Definition crashes (fx : list Effect) : list (Callback * option Z) :=
  omap (fun e => match e with
                 | Crash cb code => Some (cb, code)
                 | _ => None
                 end) fx.

Definition is_close (e : Event) : bool :=
  match e with EvClose _ _ => true | _ => false end.

End Tunnel.

(** * session.ts: the orchestrator *)

Module Session.

(** The calls of the teardown body, as they are made. *)
Inductive Step :=
| DoKillPTY
| DoStopWebServer
| DoStopTunnel
| DoProcessExit (code : Z).

Definition teardown : list Step :=
  [DoKillPTY; DoStopWebServer; DoStopTunnel; DoProcessExit 0].

(** [cleaningUp], the three supervised modules, whether the [once]
    handlers of SIGINT and SIGTERM are still installed, and the calls made
    so far.  [process.exit] is recorded as a call and the model goes on
    delivering events after it, so the properties below rest on the
    [cleaningUp] guard alone. *)
Record State := {
  cleaningUp : bool;
  pty : Pty.State;
  web : WebServer.State;
  tunnel : Tunnel.State;
  onSIGINT : bool;
  onSIGTERM : bool;
  steps : list Step;
  sent : list WebServer.Effect;
}.

Definition cleanup (st : State) : State :=
  if cleaningUp st then st
  else
    let pty1 := Pty.killPTY (pty st) in
    let '(web1, pty2, fx) := WebServer.stopWebServer (web st) pty1 in
    let '(tunnel1, _) := Tunnel.stopTunnel (tunnel st) in
    {| cleaningUp := true;
       pty := pty2;
       web := web1;
       tunnel := tunnel1;
       onSIGINT := onSIGINT st;
       onSIGTERM := onSIGTERM st;
       steps := steps st ++ teardown;
       sent := sent st ++ fx |}.

(** The state in which [startSession] leaves the handlers when every
    step succeeds: the relay started with the token, both signal handlers
    installed, the tunnel established at [url], the PTY spawned, and the
    two session callbacks registered.  When the spawn raises, the session
    ends through the failure path instead ([None]). *)
Definition started (token url : jsstring) (proc : Pty.Process)
    (options : Pty.PTYOptions) : option State :=
  let '(web1, pty1) :=
    WebServer.startWebServer token WebServer.initial Pty.initial in
  let tunnel1 :=
    (Tunnel.on_output 0%nat (Some url)
       (Tunnel.startTunnelProcess Tunnel.initial)).1 in
  match Pty.spawnPTY proc options pty1 with
  | Pty.Return _ pty2 =>
      Some {| cleaningUp := false;
              pty := Pty.onPTYExit SessionExit pty2;
              web := web1;
              tunnel := Tunnel.onTunnelCrash SessionTunnelCrash tunnel1;
              onSIGINT := true;
              onSIGTERM := true;
              steps := [];
              sent := [] |}
  | Pty.Throw _ => None
  end.

(** What can set the teardown off, and the tunnel's exit beside them. *)
Inductive Trigger :=
| SIGINT
| SIGTERM
| PtyExited (code : Z)
| TunnelClosed (p : Tunnel.proc) (code : option Z)
| CleanupCalled.

Definition set_signals (i t : bool) (st : State) : State :=
  {| cleaningUp := cleaningUp st;
     pty := pty st;
     web := web st;
     tunnel := tunnel st;
     onSIGINT := i;
     onSIGTERM := t;
     steps := steps st;
     sent := sent st |}.

(** One exit callback of pty.ts, run on the session. *)
Definition run_exit_callback (is_open : WebServer.conn → bool) (code : Z)
    (st : State) (cb : Callback) : State :=
  match cb with
  | RelayExit =>
      {| cleaningUp := cleaningUp st;
         pty := pty st;
         web := web st;
         tunnel := tunnel st;
         onSIGINT := onSIGINT st;
         onSIGTERM := onSIGTERM st;
         steps := steps st;
         sent := sent st ++ WebServer.onPTYExit_handler is_open code (web st) |}
  | SessionExit => cleanup st
  | _ => st
  end.

Definition fire (is_open : WebServer.conn → bool) (t : Trigger) (st : State)
  : State :=
  match t with
  | SIGINT =>
      (* [process.once]: the handler is removed, then run; a signal with
         no handler left is not the session's to handle *)
      if onSIGINT st then cleanup (set_signals false (onSIGTERM st) st) else st
  | SIGTERM =>
      if onSIGTERM st then cleanup (set_signals (onSIGINT st) false st) else st
  | PtyExited code =>
      (* [for (const cb of exitCallbacks) cb(exitCode)] walks the array it
         started with, then [ptyProcess = null] *)
      let st1 := foldl (run_exit_callback is_open code) st
                       (Pty.exitCallbacks (pty st)) in
      {| cleaningUp := cleaningUp st1;
         pty := Pty.on_exit_clear (pty st1);
         web := web st1;
         tunnel := tunnel st1;
         onSIGINT := onSIGINT st1;
         onSIGTERM := onSIGTERM st1;
         steps := steps st1;
         sent := sent st1 |}
  | TunnelClosed p code =>
      (* the crash callback of the session only prints a warning *)
      {| cleaningUp := cleaningUp st;
         pty := pty st;
         web := web st;
         tunnel := (Tunnel.on_close p code (tunnel st)).1;
         onSIGINT := onSIGINT st;
         onSIGTERM := onSIGTERM st;
         steps := steps st;
         sent := sent st |}
  | CleanupCalled => cleanup st
  end.

Definition run (is_open : WebServer.conn → bool) (ts : list Trigger)
    (st : State) : State :=
  foldl (fun s t => fire is_open t s) st ts.

(** *** What to run (session.ts, lines 172-193) *)

Definition space : code_unit := 32%N.

(** [s.includes(' ')]. *)
Definition includes (sep : code_unit) (s : jsstring) : bool :=
  existsb (N.eqb sep) s.

(** [s.split(' ')]: the parts between the separators, empty parts kept;
    the empty string gives one empty part. *)
Fixpoint split (sep : code_unit) (s : jsstring) : list jsstring :=
  match s with
  | [] => [[]]
  | u :: s' =>
      if N.eqb sep u then [] :: split sep s'
      else match split sep s' with
           | w :: ws => (u :: w) :: ws
           | [] => [[u]]
           end
  end.

(** [a.join(' ')], as in the message printed on exit (line 221). *)
Fixpoint join (sep : code_unit) (a : list jsstring) : jsstring :=
  match a with
  | [] => []
  | x :: a' =>
      match a' with
      | [] => x
      | _ :: _ => x ++ sep :: join sep a'
      end
  end.

(** [commandToRun] and [argsToRun].  [command] is the optional array of
    the command line; a single word holding a space is split at the
    spaces; with no command the shell of [process.env.SHELL] runs.
    [parts[0]] always exists, since [split] returns at least one part. *)
Definition command_to_run (proc : Pty.Process)
    (command : option (list jsstring)) : jsstring * list jsstring :=
  match command with
  | Some (c0 :: rest) =>
      if (length (c0 :: rest) =? 1)%nat && includes space c0 then
        match split space c0 with
        | p0 :: ps => (p0, ps)
        | [] => ([], [])
        end
      else (c0, rest)
  | _ => (str_or (Pty.env_SHELL proc) (str "/bin/sh"), [])
  end.

(** The options of the [spawnPTY] call of lines 197-201. *)
Definition spawn_options (proc : Pty.Process)
    (command : option (list jsstring)) : Pty.PTYOptions :=
  {| Pty.opt_cols := None;
     Pty.opt_rows := None;
     Pty.opt_command := Some (command_to_run proc command).1;
     Pty.opt_args := Some (command_to_run proc command).2;
     Pty.opt_cwd := Some (Pty.process_cwd proc) |}.

End Session.

(** * Specification

    The vocabulary in which the properties are stated, and the concrete
    states and inputs on which they are tried. *)

(** ** The clear-screen expression *)

(** The three control sequences that [CLEAR_SCREEN_RE] denotes:
    ESC [ 2 J, ESC [ 3 J and ESC c. *)
Definition clear_sequences : list jsstring :=
  [ [27; 91; 50; 74]; [27; 91; 51; 74]; [27; 99] ]%N.

(** The chunk has an occurrence of a clear-screen sequence. *)
Definition contains_clear (s : jsstring) : Prop :=
  ∃ pre m post, m ∈ clear_sequences ∧ s = pre ++ m ++ post.

(** ** The output log *)

(** The sequence numbers of the retained records, oldest first. *)
Definition seqs (b : list WebServer.BufferEntry) : list Z :=
  WebServer.seq <$> b.

Definition strictly_increasing (l : list Z) : Prop :=
  ∀ i j x y, (i < j)%nat → l !! i = Some x → l !! j = Some y → x < y.

Definition gapless (l : list Z) : Prop :=
  ∀ i x y, l !! i = Some x → l !! S i = Some y → y = x + 1.

(** The retained records are numbered consecutively up to [nextSeq - 1],
    and numbers start at 1. *)
Record log_inv (st : WebServer.State) : Prop := {
  log_numbered :
    ∀ i e, WebServer.outputBuffer st !! i = Some e →
           WebServer.seq e =
           WebServer.nextSeq st
           - Z.of_nat (length (WebServer.outputBuffer st)) + Z.of_nat i;
  log_from_one :
    1 ≤ WebServer.nextSeq st - Z.of_nat (length (WebServer.outputBuffer st));
}.

(** The chunks, appended in order through the PTY-data handler. *)
Definition appends (is_open : WebServer.conn → bool) (chunks : list jsstring)
  : list WebServer.Event :=
  WebServer.EvPtyData is_open <$> chunks.

(** ESC [ 2 J, "foo", ESC c, "X": two clear sequences, then text. *)
Definition two_clears_then_X : jsstring :=
  ([27; 91; 50; 74] ++ str "foo" ++ [27; 99] ++ str "X")%N.

(** ** The PTY supervisor *)

(** A Node process with an 80x24 terminal whose [pty.spawn] succeeds. *)
Definition node_process : Pty.Process := {|
  Pty.env_SHELL := Some (str "/bin/zsh");
  Pty.stdout_columns := Some 80;
  Pty.stdout_rows := Some 24;
  Pty.process_cwd := str "/home/user";
  Pty.spawn_raises := false;
|}.

(** The options [startSession] passes: a command, its arguments, a
    directory, no size. *)
Definition session_options (command : jsstring) : Pty.PTYOptions := {|
  Pty.opt_cols := None;
  Pty.opt_rows := None;
  Pty.opt_command := Some command;
  Pty.opt_args := Some [];
  Pty.opt_cwd := Some (str "/home/user");
|}.

(** The supervisor after one successful spawn: a live 80x24 PTY. *)
Definition live_pty : Pty.State :=
  match Pty.spawnPTY node_process (session_options (str "vim")) Pty.initial with
  | Pty.Return _ st => st
  | Pty.Throw st => st
  end.

(** ** The sync handshake *)

(** The reply to a first [sync], in the words of the specification:
    nothing for an empty log; when [lastSeq] is at least the oldest
    retained number, a [history-delta] with the records after [lastSeq]
    and the newest number sent, or nothing when there is no such record;
    otherwise a [history] with the whole log and its newest number. *)
Definition sync_reply_spec (ws : WebServer.conn)
    (log : list WebServer.BufferEntry) (lastSeq : Z) : list WebServer.Effect :=
  match log with
  | [] => []
  | oldest :: _ =>
      if decide (WebServer.seq oldest ≤ lastSeq) then
        let delta := filter (fun e => lastSeq < WebServer.seq e) log in
        match last delta with
        | Some newest =>
            [WebServer.Send ws
               (WebServer.HistoryDelta (WebServer.data <$> delta)
                                       (WebServer.seq newest))]
        | None => []
        end
      else
        match last log with
        | Some newest =>
            [WebServer.Send ws
               (WebServer.History (WebServer.data <$> log)
                                  (WebServer.seq newest))]
        | None => []
        end
  end.

(** A relay with two retained records, numbered 1 and 2, and one
    connection that has not synced. *)
Definition relay_two_records : WebServer.State :=
  WebServer.after
    [WebServer.EvConnection 1000 1000 7%nat;
     WebServer.EvPtyData (fun _ => true) (str "ab");
     WebServer.EvPtyData (fun _ => true) (str "cd")]
    Pty.initial.

Definition fresh_closure : WebServer.Closure := {|
  WebServer.clientInfo := {| WebServer.cols := 80; WebServer.rows := 24;
                             WebServer.id := (1000, 1);
                             WebServer.synced := false |};
  WebServer.msgCount := 0;
  WebServer.msgWindowStart := 1000;
|}.

(** ** Size arbitration *)

(** A client's declared size counts when both dimensions are positive. *)
Definition positive_size (ci : WebServer.ClientInfo) : Prop :=
  0 < WebServer.cols ci ∧ 0 < WebServer.rows ci.

(** [x] is the least of the local dimension [l] and the dimension [dim]
    of every connected client with a positive size. *)
Definition least_dimension (dim : WebServer.ClientInfo → Z) (l : Z)
    (cl : gmap WebServer.conn WebServer.ClientInfo) (x : Z) : Prop :=
  (x = l ∨ ∃ ws ci, cl !! ws = Some ci ∧ positive_size ci ∧ x = dim ci) ∧
  x ≤ l ∧
  (∀ ws ci, cl !! ws = Some ci → positive_size ci → x ≤ dim ci).

(** Every accepted connection has a size within the accepted bounds. *)
Definition sizes_in_bounds (st : WebServer.State) : Prop :=
  ∀ ws c, WebServer.closures st !! ws = Some c →
          0 < WebServer.cols (WebServer.clientInfo c) ≤ 500 ∧
          0 < WebServer.rows (WebServer.clientInfo c) ≤ 200.

(** A live PTY on a local terminal of 100 columns and 40 rows. *)
Definition local_100x40 : Pty.State :=
  match Pty.spawnPTY
          {| Pty.env_SHELL := None; Pty.stdout_columns := Some 100;
             Pty.stdout_rows := Some 40; Pty.process_cwd := str "/";
             Pty.spawn_raises := false |}
          (session_options (str "vim")) Pty.initial with
  | Pty.Return _ st => st
  | Pty.Throw st => st
  end.

(** Two clients connect and declare 80x24 and 120x50. *)
Definition two_clients : list WebServer.Event :=
  [WebServer.EvConnection 0 0 1%nat;
   WebServer.EvMessage 1 1%nat (WebServer.MsgResize (Some 80) (Some 24));
   WebServer.EvConnection 2 2 2%nat;
   WebServer.EvMessage 3 2%nat (WebServer.MsgResize (Some 120) (Some 50))].

(** The size the PTY handle carries. *)
Definition pty_size (pty : Pty.State) : option (Z * Z) :=
  (fun h => (Pty.pty_cols h, Pty.pty_rows h)) <$> Pty.ptyProcess pty.

(** ** The rate limit *)

(** What is observed of one frame handed to the message handler: whether
    it passed the rate limit and went on to be parsed, what the handler
    sent or closed, and whether the connection is still among the
    connected clients afterwards. *)
Record Delivery := {
  passed : bool;
  effects : list WebServer.Effect;
  connected_after : bool;
}.

(** The frames [ms] of connection [ws], each with its arrival time,
    delivered in order to the relay in state [s]. *)
Fixpoint deliveries (ws : WebServer.conn)
    (ms : list (Z * WebServer.ClientMsg))
    (s : WebServer.State * Pty.State) : list Delivery :=
  match ms with
  | [] => []
  | tm :: ms' =>
      let r := WebServer.step (WebServer.EvMessage tm.1 ws tm.2) s in
      {| passed := match WebServer.closures s.1 !! ws with
                   | Some c => (WebServer.rate_check tm.1 c).2
                   | None => false
                   end;
         effects := r.2;
         connected_after :=
           bool_decide (ws ∈ WebServer.connectedClients r.1.1) |}
        :: deliveries ws ms' r.1
  end.



(** 101 input frames arriving at the same millisecond. *)
Definition burst : list (Z * WebServer.ClientMsg) :=
  replicate 101 (1500, WebServer.MsgInput (Some (str "x"))).

(** ** The tunnel supervisor *)

(** A tunnel that has been started, has a crash callback registered and
    has announced its URL. *)
Definition established_tunnel : Tunnel.State :=
  (Tunnel.run [Tunnel.EvStart; Tunnel.EvOnCrash SessionTunnelCrash;
               Tunnel.EvOutput 0%nat
                 (Some (str "https://a-b.trycloudflare.com"))]
              Tunnel.initial).1.

(** ** The orchestrator *)

(** From [st] to [st'] the teardown body has run at most once: either
    nothing was torn down and the guard is as before, or the guard was
    clear, is now set, and the teardown calls were made once. *)
Definition torn_down_at_most_once (st st' : Session.State) : Prop :=
  (Session.steps st' = Session.steps st ∧
   Session.cleaningUp st' = Session.cleaningUp st) ∨
  (Session.cleaningUp st = false ∧
   Session.cleaningUp st' = true ∧
   Session.steps st' = Session.steps st ++ Session.teardown).

(** A session as [startSession] leaves it, running vim. *)
Definition running_session : Session.State :=
  default
    {| Session.cleaningUp := false; Session.pty := Pty.initial;
       Session.web := WebServer.initial; Session.tunnel := Tunnel.initial;
       Session.onSIGINT := true; Session.onSIGTERM := true;
       Session.steps := []; Session.sent := [] |}
    (Session.started (str "0123456789abcdef")
                     (str "https://a-b.trycloudflare.com")
                     node_process (session_options (str "vim"))).

(** ** The log and the stream of the PTY *)

(** The chunks the PTY has emitted since the relay was last stopped,
    oldest first: what the events have handed to the PTY-data handler. *)
Definition record_chunk (h : list jsstring) (e : WebServer.Event)
  : list jsstring :=
  match e with
  | WebServer.EvPtyData _ chunk => h ++ [chunk]
  | WebServer.EvStop => []
  | _ => h
  end.

Definition emitted (es : list WebServer.Event) : list jsstring :=
  foldl record_chunk [] es.

(** The log against the chunks [h] emitted so far: as many numbers have
    been given out as chunks were emitted, and every retained record but
    the oldest holds, unchanged, the chunk of its number. *)
Record hist_inv (h : list jsstring) (st : WebServer.State) : Prop := {
  hist_count : Z.of_nat (length h) = WebServer.nextSeq st - 1;
  hist_chunk :
    ∀ i e, WebServer.outputBuffer st !! S i = Some e →
           h !! Z.to_nat (WebServer.seq e - 1) = Some (WebServer.data e);
}.

(** The text of the retained log, oldest record first. *)
Definition log_text (st : WebServer.State) : jsstring :=
  concat (WebServer.data <$> WebServer.outputBuffer st).

Definition is_stop (e : WebServer.Event) : bool :=
  match e with WebServer.EvStop => true | _ => false end.

(** Three chunks to a relay with one open connection. *)
Definition three_chunks : list WebServer.Event :=
  [WebServer.EvConnection 0 0 1%nat;
   WebServer.EvPtyData (fun _ => true) (str "a");
   WebServer.EvPtyData (fun _ => true) (str "b");
   WebServer.EvPtyData (fun _ => true) (str "c")].

(** ** Connections and frames *)

(** A [resize] frame is in range when both numbers are integers, the
    columns in (0, 500] and the rows in (0, 200]. *)
Definition in_range (c r : option Z) : Prop :=
  ∃ cs rs, c = Some cs ∧ r = Some rs ∧ 0 < cs ≤ 500 ∧ 0 < rs ≤ 200.

(** The size recorded for each connected client. *)
Definition client_sizes (st : WebServer.State) : gmap WebServer.conn (Z * Z) :=
  (fun ci => (WebServer.cols ci, WebServer.rows ci)) <$> WebServer.clients st.

(** Twelve sockets connect, one after the other. *)
Definition twelve_connections : list WebServer.Event :=
  (fun ws => WebServer.EvConnection 0 0 ws) <$> seq 0 12.

(** ** Credentials *)

(** Text whose code units are ASCII and not NUL, as the hexadecimal
    session token is. *)
Definition ascii_text (s : jsstring) : Prop :=
  Forall (fun u => 0 < u < 128)%N s.


(** A relay started with a hexadecimal token. *)
Definition relay_with_token : WebServer.State :=
  (WebServer.startWebServer (str "0123456789abcdef") WebServer.initial
                            Pty.initial).1.

(** ** The PTY supervisor as a transition system *)

(** Everything that can happen to the supervisor: the exported functions
    as they are called, the exit of the subprocess, and a resize of the
    local terminal. *)
Inductive PtyOp :=
| OpSpawn (proc : Pty.Process) (options : Pty.PTYOptions)
| OpWrite (data : jsstring)
| OpResize (cols rows : Z)
| OpKill
| OpExited
| OpStdoutResize (columns rows : option Z)
| OpOnData (cb : Callback)
| OpOnExit (cb : Callback)
| OpOnResize (cb : Callback)
| OpClearCallbacks.

Definition pty_apply (st : Pty.State) (op : PtyOp) : Pty.State :=
  match op with
  | OpSpawn proc options =>
      match Pty.spawnPTY proc options st with
      | Pty.Return _ st' => st'
      | Pty.Throw st' => st'
      end
  | OpWrite data => Pty.writeToPTY data st
  | OpResize cols rows => Pty.resizePTY cols rows st
  | OpKill => Pty.killPTY st
  | OpExited => Pty.on_exit_clear st
  | OpStdoutResize columns rows => (Pty.on_stdout_resize columns rows st).1
  | OpOnData cb => Pty.onPTYData cb st
  | OpOnExit cb => Pty.onPTYExit cb st
  | OpOnResize cb => Pty.onLocalTerminalResize cb st
  | OpClearCallbacks => Pty.clearCallbacks st
  end.

Definition pty_run (ops : list PtyOp) : Pty.State :=
  foldl pty_apply Pty.initial ops.

(** The handle a call is addressed to. *)
Definition call_pid (c : Pty.Call) : nat :=
  match c with
  | Pty.CallSpawn h => Pty.pid h
  | Pty.CallWrite p _ => p
  | Pty.CallResize p _ _ => p
  | Pty.CallKill p => p
  end.

(** The trace of calls is in order: every call names a handle spawned
    by then, the handle held has not been killed, and no call follows
    the kill of the handle it names. *)
Record trace_inv (st : Pty.State) : Prop := {
  trace_known :
    ∀ c, c ∈ Pty.calls st → (call_pid c < length (Pty.calls st))%nat;
  trace_held :
    ∀ h, Pty.ptyProcess st = Some h →
         (Pty.pid h < length (Pty.calls st))%nat ∧
         Pty.CallKill (Pty.pid h) ∉ Pty.calls st;
  trace_killed :
    ∀ i j p c, (i < j)%nat →
               Pty.calls st !! i = Some (Pty.CallKill p) →
               Pty.calls st !! j = Some c →
               call_pid c ≠ p;
}.

(** Spawn, kill, spawn again, write. *)
Definition respawn_and_write : list PtyOp :=
  [OpSpawn node_process (session_options (str "vim"));
   OpKill;
   OpSpawn node_process (session_options (str "top"));
   OpWrite (str "q")].

(** ** The tunnel's promise and signals *)

(** The URLs with which the start promise of process [p] is resolved. *)
Definition resolutions (p : Tunnel.proc) (fx : list Tunnel.Effect)
  : list jsstring :=
  omap (fun e => match e with
                 | Tunnel.Resolve q url => if decide (q = p) then Some url else None
                 | _ => None
                 end) fx.

(** The termination signals sent to process [p]. *)
Definition kills (p : Tunnel.proc) (fx : list Tunnel.Effect) : list unit :=
  omap (fun e => match e with
                 | Tunnel.Kill q => if decide (q = p) then Some () else None
                 | _ => None
                 end) fx.

(** Processes are named in the order they are started, and the current
    handle is one of them. *)
Record tunnel_wf (st : Tunnel.State) : Prop := {
  wf_started :
    ∀ p, is_Some (Tunnel.handlers st !! p) → (p < size (Tunnel.handlers st))%nat;
  wf_current :
    ∀ p, Tunnel.tunnelProcess st = Some p → is_Some (Tunnel.handlers st !! p);
}.

(** How often the promise of [p] can still be resolved. *)
Definition resolve_budget (p : Tunnel.proc) (st : Tunnel.State) : nat :=
  match Tunnel.handlers st !! p with
  | Some c => if Tunnel.urlFound c then 0 else 1
  | None => 1
  end.

(** How often [p] can still be signalled: once while it is the current
    handle or not started yet, never once it is started and no longer
    the current handle. *)
Definition kill_budget (p : Tunnel.proc) (st : Tunnel.State) : nat :=
  if decide (Tunnel.tunnelProcess st = Some p) then 1
  else match Tunnel.handlers st !! p with
       | Some _ => 0
       | None => 1
       end.

(** The timer of [p] has been cleared or has fired. *)
Definition timer_off (p : Tunnel.proc) (st : Tunnel.State) : Prop :=
  ∃ c, Tunnel.handlers st !! p = Some c ∧ Tunnel.timerPending c = false.

(** A tunnel starts and prints its URL twice. *)
Definition url_twice : list Tunnel.Event :=
  [Tunnel.EvStart;
   Tunnel.EvOutput 0%nat (Some (str "https://a-b.trycloudflare.com"));
   Tunnel.EvOutput 0%nat (Some (str "https://c-d.trycloudflare.com"))].

(** ** The session after its teardown *)

(** Nothing is left that could act: no PTY handle, no callback of the
    PTY or of the tunnel, no input or resize listener, no connected
    client, no retained output, no tunnel handle. *)
Definition dismantled (st : Session.State) : Prop :=
  Pty.ptyProcess (Session.pty st) = None ∧
  Pty.dataCallbacks (Session.pty st) = [] ∧
  Pty.exitCallbacks (Session.pty st) = [] ∧
  Pty.resizeCallbacks (Session.pty st) = [] ∧
  Pty.stdinListener (Session.pty st) = false ∧
  Pty.resizeListener (Session.pty st) = false ∧
  WebServer.clients (Session.web st) = ∅ ∧
  WebServer.outputBuffer (Session.web st) = [] ∧
  Tunnel.tunnelProcess (Session.tunnel st) = None ∧
  Tunnel.crashCallbacks (Session.tunnel st) = [].

(** What a session has done to the outside: the teardown calls, the
    frames and closes sent to clients, the calls made on PTY handles. *)
Definition session_trace (st : Session.State)
  : list Session.Step * list WebServer.Effect * list Pty.Call :=
  (Session.steps st, Session.sent st, Pty.calls (Session.pty st)).

(** ** The command line of a session *)

(** No word holds a space. *)
Definition space_free (ws : list jsstring) : Prop :=
  Forall (fun w => Session.includes Session.space w = false) ws.

(** The command line as node-pty receives it from a session: the
    program, then its arguments. *)
Definition spawned_words (proc : Pty.Process)
    (command : option (list jsstring)) : option (list jsstring) :=
  match Pty.spawnPTY proc (Session.spawn_options proc command) Pty.initial with
  | Pty.Return h _ => Some (Pty.pty_command h :: Pty.pty_args h)
  | Pty.Throw _ => None
  end.

(** ** Input from clients *)

(** The texts written to PTY handles, in order. *)
Definition written (c : list Pty.Call) : list jsstring :=
  omap (fun x => match x with
                 | Pty.CallWrite _ d => Some d
                 | _ => None
                 end) c.

(** The texts of the [input] frames among some events, in order. *)
Definition inputs (es : list WebServer.Event) : list jsstring :=
  omap (fun e => match e with
                 | WebServer.EvMessage _ _ (WebServer.MsgInput (Some d)) => Some d
                 | _ => None
                 end) es.

(** One client types into a live PTY; a socket that never connected
    sends a frame as well. *)
Definition typing : list WebServer.Event :=
  [WebServer.EvConnection 0 0 1%nat;
   WebServer.EvMessage 1 1%nat (WebServer.MsgInput (Some (str "l")));
   WebServer.EvMessage 2 2%nat (WebServer.MsgInput (Some (str "x")));
   WebServer.EvMessage 3 1%nat (WebServer.MsgInput (Some (str "s")))].

(** * Proofs *)

(** ** Properties of the matcher *)

Section RegexFacts.
Import Regex.
Variable re : Regex.t.

(** The three facts about [re] on which the scan relies: it does not match
    the empty subject, matches are not empty, and no match starts inside
    another one. *)
Hypothesis re_nil : match_here re [] = None.
Hypothesis re_pos : ∀ s len, match_here re s = Some len → (0 < len)%nat.
Hypothesis re_apart :
  ∀ s len k, match_here re s = Some len → (0 < k < len)%nat →
             match_here re (drop k s) = None.

Lemma test_cons x s :
  test re (x :: s) =
  match match_here re (x :: s) with Some _ => true | None => test re s end.
Proof. reflexivity. Qed.

Lemma test_cons_false x s :
  test re (x :: s) = false → test re s = false.
Proof. simpl. destruct (match_here re (x :: s)); [done|tauto]. Qed.

Lemma test_drop_false k s :
  test re s = false → test re (drop k s) = false.
Proof.
  revert s. induction k as [|k IH]; intros [|x s] H; simpl; try done.
  apply IH. by eapply test_cons_false.
Qed.

Lemma test_false_here s : test re s = false → match_here re s = None.
Proof.
  destruct s as [|x s]; simpl; [done|].
  by destruct (match_here re (x :: s)).
Qed.

Lemma matchAll_from_spec s : ∀ i skip,
  (∀ k, (k < skip)%nat → match_here re (drop k s) = None) →
  let ms := matchAll_from re i skip s in
  (ms = [] → test re s = false) ∧
  (∀ m, last ms = Some m →
        (i ≤ index m)%nat ∧
        match_here re (drop (index m - i) s) = Some (mlen m) ∧
        test re (drop (index m - i + mlen m) s) = false).
Proof.
  induction s as [|x s IH]; intros i skip Hskip; simpl.
  - split; [by rewrite re_nil|done].
  - destruct skip as [|k].
    + destruct (match_here re (x :: s)) as [len|] eqn:Hm.
      * assert (Hlen := re_pos _ _ Hm).
        destruct (IH (S i) (pred len)) as [Hnil Hlast].
        { intros k Hk. apply (re_apart _ _ (S k) Hm). lia. }
        split; [done|]. intros m.
        destruct (matchAll_from re (S i) (pred len) s) as [|m' ms'] eqn:Hms.
        -- simpl. intros [= <-]. simpl. rewrite Nat.sub_diag. simpl.
           split; [lia|]. split; [done|].
           destruct len as [|len]; [lia|]. simpl.
           apply test_drop_false. by apply Hnil.
        -- intros Hl. rewrite last_cons_cons in Hl.
           destruct (Hlast m Hl) as (Hi & Hh & Ht).
           split; [lia|].
           replace (index m - i)%nat with (S (index m - S i)) by lia.
           simpl. done.
      * destruct (IH (S i) 0%nat) as [Hnil Hlast]; [intros; lia|].
        split.
        -- intros Hms. by apply Hnil.
        -- intros m Hl. destruct (Hlast m Hl) as (Hi & Hh & Ht).
           split; [lia|].
           replace (index m - i)%nat with (S (index m - S i)) by lia.
           simpl. done.
    + destruct (IH (S i) k) as [Hnil Hlast].
      { intros j Hj. apply (Hskip (S j)). lia. }
      split.
      * intros Hms. assert (H0 := Hskip 0%nat ltac:(lia)).
        simpl in H0. rewrite H0. by apply Hnil.
      * intros m Hl. destruct (Hlast m Hl) as (Hi & Hh & Ht).
        split; [lia|].
        replace (index m - i)%nat with (S (index m - S i)) by lia.
        simpl. done.
Qed.

(** When [test] succeeds, [matchAll] is not empty, so its last element
    exists. *)
Lemma test_matchAll s : test re s = true → matchAll re s ≠ [].
Proof.
  intros Ht Hnil.
  destruct (matchAll_from_spec s 0 0) as [H _]; [intros; lia|].
  rewrite H in Ht; done.
Qed.

Lemma matchAll_last s m :
  last (matchAll re s) = Some m →
  match_here re (drop (index m) s) = Some (mlen m) ∧
  test re (drop (index m + mlen m) s) = false.
Proof.
  intros Hl.
  destruct (matchAll_from_spec s 0 0) as [_ H]; [intros; lia|].
  destruct (H m Hl) as (_ & Hh & Ht).
  by rewrite Nat.sub_0_r in Hh, Ht.
Qed.

End RegexFacts.

(** ** The clear-screen expression *)

Section ClearScreen.
Import Regex WebServer.

Lemma clear_here_inv s len :
  match_here CLEAR_SCREEN_RE s = Some len →
  ∃ m post, m ∈ clear_sequences ∧ s = m ++ post ∧ length m = len.
Proof.
  unfold CLEAR_SCREEN_RE, match_here.
  destruct (match_alt _ s) eqn:H4.
  - intros [= <-].
    destruct s as [|a [|b [|c [|d post]]]]; cbn [match_alt] in H4;
      rewrite ?andb_false_r in H4; try done.
    unfold lit, one_of, ESC in H4. cbn [existsb] in H4.
    rewrite orb_false_r, !andb_true_iff, orb_true_iff, !N.eqb_eq in H4.
    destruct H4 as (<- & <- & Hc & <- & _).
    destruct Hc as [->| ->].
    + exists [27; 91; 50; 74]%N, post. set_solver.
    + exists [27; 91; 51; 74]%N, post. set_solver.
  - destruct (match_alt [lit ESC; lit 99%N] s) eqn:H2; [|done].
    intros [= <-].
    destruct s as [|a [|b post]]; cbn [match_alt] in H2;
      rewrite ?andb_false_r in H2; try done.
    unfold lit, ESC in H2.
    rewrite !andb_true_iff, !N.eqb_eq in H2.
    destruct H2 as (<- & <- & _).
    exists [27; 99]%N, post. set_solver.
Qed.

Lemma clear_here_intro m post :
  m ∈ clear_sequences →
  match_here CLEAR_SCREEN_RE (m ++ post) = Some (length m).
Proof.
  unfold clear_sequences. rewrite !elem_of_cons, elem_of_nil.
  intros [->|[->|[->|[]]]]; reflexivity.
Qed.

Lemma clear_nil : match_here CLEAR_SCREEN_RE [] = None.
Proof. reflexivity. Qed.

Lemma clear_pos s len :
  match_here CLEAR_SCREEN_RE s = Some len → (0 < len)%nat.
Proof.
  intros (m & post & Hm & _ & <-)%clear_here_inv.
  unfold clear_sequences in Hm. rewrite !elem_of_cons, elem_of_nil in Hm.
  destruct Hm as [->|[->|[->|[]]]]; simpl; lia.
Qed.

(** A clear-screen sequence starts with ESC and has no other ESC, so no
    match of the expression starts inside another one. *)
Lemma clear_apart s len k :
  match_here CLEAR_SCREEN_RE s = Some len → (0 < k < len)%nat →
  match_here CLEAR_SCREEN_RE (drop k s) = None.
Proof.
  intros (m & post & Hm & -> & <-)%clear_here_inv Hk.
  unfold clear_sequences in Hm. rewrite !elem_of_cons, elem_of_nil in Hm.
  destruct Hm as [->|[->|[->|[]]]]; simpl in Hk;
    do 4 (destruct k as [|k]; [try lia; try reflexivity|]); lia.
Qed.

Lemma test_contains_clear s :
  test CLEAR_SCREEN_RE s = true ↔ contains_clear s.
Proof.
  split.
  - induction s as [|x s IH]; [done|]. rewrite test_cons.
    destruct (match_here CLEAR_SCREEN_RE (x :: s)) as [len|] eqn:Hm.
    + intros _. apply clear_here_inv in Hm as (m & post & Hin & -> & _).
      by exists [], m, post.
    + intros (pre & m & post & Hin & ->)%IH.
      by exists (x :: pre), m, post.
  - intros (pre & m & post & Hm & ->).
    induction pre as [|x pre IH].
    + assert (H := clear_here_intro m post Hm). cbn [app].
      destruct (m ++ post) as [|y t] eqn:E; [by rewrite clear_nil in H|].
      by rewrite test_cons, H.
    + cbn [app]. rewrite test_cons.
      by destruct (match_here CLEAR_SCREEN_RE (x :: pre ++ m ++ post)).
Qed.

End ClearScreen.

(** ** The output log *)

Section OutputLog.
Import WebServer.

(** A property of the relay state that every handler keeps holds
    after every run. *)
Lemma run_invariant (P : State → Prop) :
  (∀ e s, P s.1 → P (step e s).1.1) →
  ∀ es s, P s.1 → P (run es s).1.1.
Proof.
  intros Hstep es. induction es as [|e es IH]; intros s Hs; [done|].
  simpl. specialize (Hstep e s Hs).
  destruct (step e s) as [s1 fx1]. specialize (IH s1 Hstep).
  by destruct (run es s1).
Qed.

Lemma log_inv_initial : log_inv initial.
Proof. split; [done|simpl; lia]. Qed.

(** [last.index] is never read of a missing match. *)
Lemma retain_total sq chunk pushed : is_Some (retain sq chunk pushed).
Proof.
  unfold retain.
  destruct (Regex.test CLEAR_SCREEN_RE chunk) eqn:Ht.
  - apply (test_matchAll _ clear_nil clear_pos clear_apart) in Ht.
    destruct (last (Regex.matchAll CLEAR_SCREEN_RE chunk)) eqn:Hl; [done|].
    by apply last_None in Hl.
  - by case_decide.
Qed.

Lemma log_inv_data is_open chunk st :
  log_inv st → log_inv (onPTYData_handler is_open chunk st).1.
Proof.
  intros [Hnum Hone]. unfold onPTYData_handler.
  set (pushed := outputBuffer st ++ _).
  assert (Hpushed : ∀ i e, pushed !! i = Some e →
            seq e = nextSeq st + 1 - Z.of_nat (length pushed) + Z.of_nat i).
  { intros i e. unfold pushed. rewrite length_app. simpl.
    intros [Hi|[Hi He]]%lookup_app_Some.
    - rewrite (Hnum i e Hi). lia.
    - apply list_lookup_singleton_Some in He as [Hz <-]. simpl. lia. }
  assert (Hlen : length pushed = S (length (outputBuffer st))).
  { unfold pushed. rewrite length_app. simpl. lia. }
  destruct (retain _ _ _) as [b|] eqn:Hr; simpl; [|split; simpl; [done|lia]].
  unfold retain in Hr.
  destruct (Regex.test CLEAR_SCREEN_RE chunk).
  - destruct (last _) as [m|]; [|done]. injection Hr as <-.
    destruct (slice_from _ _) as [|c after]; split; simpl; try lia.
    + done.
    + intros [|i] e; [|done]. intros [= <-]. simpl. lia.
  - case_decide as Hbig; injection Hr as <-; split; simpl.
    + intros i e. rewrite lookup_drop. intros He%Hpushed.
      rewrite length_drop. unfold MAX_BUFFER_SIZE, BUFFER_TRIM_SIZE in *. lia.
    + rewrite length_drop. lia.
    + done.
    + lia.
Qed.

Lemma log_inv_step e s :
  log_inv s.1 → log_inv (step e s).1.1.
Proof.
  destruct s as [st pty]. simpl. intros Hinv.
  destruct e; simpl.
  - unfold on_connection. case_decide; simpl; [done|].
    by destruct Hinv.
  - unfold on_message. destruct (closures st !! ws); [|done].
    destruct (rate_check now c) as [c' [|]]; [|by destruct Hinv].
    unfold dispatch.
    repeat case_match; simpl; by destruct Hinv.
  - unfold on_ws_error. case_match; [|done]. by destruct Hinv.
  - unfold on_ws_close. case_match; [|done]. by destruct Hinv.
  - destruct (onPTYData_handler is_open chunk st) eqn:E. simpl.
    change s with (s, l).1. rewrite <- E. by apply log_inv_data.
  - done.
  - done.
  - split; simpl; [done|lia].
Qed.

Lemma log_inv_run es s : log_inv s.1 → log_inv (run es s).1.1.
Proof. apply run_invariant, log_inv_step. Qed.

Lemma log_inv_after es pty : log_inv (after es pty).
Proof. apply log_inv_run, log_inv_initial. Qed.

Lemma log_inv_increasing st :
  log_inv st → strictly_increasing (seqs (outputBuffer st)).
Proof.
  intros [Hnum _] i j x y Hij. unfold seqs. rewrite !list_lookup_fmap.
  destruct (outputBuffer st !! i) as [e1|] eqn:H1; [|done].
  destruct (outputBuffer st !! j) as [e2|] eqn:H2; [|done].
  simpl. intros [= <-] [= <-].
  rewrite (Hnum _ _ H1), (Hnum _ _ H2). lia.
Qed.

Lemma log_inv_gapless st : log_inv st → gapless (seqs (outputBuffer st)).
Proof.
  intros [Hnum _] i x y. unfold seqs. rewrite !list_lookup_fmap.
  destruct (outputBuffer st !! i) as [e1|] eqn:H1; [|done].
  destruct (outputBuffer st !! S i) as [e2|] eqn:H2; [|done].
  simpl. intros [= <-] [= <-].
  rewrite (Hnum _ _ H1), (Hnum _ _ H2). lia.
Qed.

End OutputLog.

Section OutputLogClaims.
Import WebServer.

(** C1: after any sequence of relay events from the initial state, and so
    after any sequence of chunks appended through the PTY-data handler,
    with high-water trims and clear-screen truncations among them, the
    sequence numbers of the retained records are strictly increasing and
    have no gaps. *)
Theorem C1_retained_seqs_increasing_gapless (es : list Event) (pty : Pty.State) :
  strictly_increasing (seqs (outputBuffer (after es pty))) ∧
  gapless (seqs (outputBuffer (after es pty))).
Proof.
  split.
  - apply log_inv_increasing, log_inv_after.
  - apply log_inv_gapless, log_inv_after.
Qed.

(** The high-water trim at work: the 5001st chunk leaves the newest 3000
    records, numbered 2002 to 5001. *)
Example trim_at_high_water :
  let st := after (appends (fun _ => true)
                           (replicate (S MAX_BUFFER_SIZE) (str "a")))
                  Pty.initial in
  length (outputBuffer st) = BUFFER_TRIM_SIZE ∧
  seq <$> head (outputBuffer st) = Some 2002 ∧
  seq <$> last (outputBuffer st) = Some 5001 ∧
  nextSeq st = 5002.
Proof. vm_compute. done. Qed.

(** C3: when the appended chunk contains a clear-screen sequence, it
    splits as [pre ++ m ++ rest] with [m] the last clear-screen sequence
    in it ([rest] contains none), and the log afterwards holds [rest]
    alone: one record with the chunk's sequence number, or nothing when
    [rest] is empty.  Every earlier record is gone. *)
Theorem C3_clear_screen_truncates (is_open : conn → bool) (chunk : jsstring)
    (st : State) :
  contains_clear chunk →
  ∃ pre m rest,
    chunk = pre ++ m ++ rest ∧
    m ∈ clear_sequences ∧
    ¬ contains_clear rest ∧
    outputBuffer (onPTYData_handler is_open chunk st).1 =
      match rest with
      | [] => []
      | _ :: _ => [{| seq := nextSeq st; data := rest |}]
      end.
Proof.
  intros Ht%test_contains_clear.
  unfold onPTYData_handler, retain. rewrite Ht.
  assert (Hne := test_matchAll _ clear_nil clear_pos clear_apart _ Ht).
  destruct (last (Regex.matchAll CLEAR_SCREEN_RE chunk)) as [m|] eqn:Hl;
    [|by apply last_None in Hl].
  destruct (matchAll_last _ clear_nil clear_pos clear_apart _ _ Hl)
    as [Hh Hrest].
  apply clear_here_inv in Hh as (cs & post & Hcs & Hsplit & Hlen).
  assert (Hafter : slice_from (Regex.index m + Regex.mlen m) chunk = post).
  { unfold slice_from. rewrite <- drop_drop, Hsplit, <- Hlen.
    by rewrite drop_app_length. }
  exists (take (Regex.index m) chunk), cs, post. repeat split.
  - by rewrite <- Hsplit, take_drop.
  - done.
  - rewrite <- test_contains_clear, <- Hafter.
    unfold slice_from. by rewrite Hrest.
  - rewrite Hafter. by destruct post.
Qed.

(** The hypothesis of C3 holds of a concrete chunk, and the theorem
    applies to it. *)
Lemma C3_witness :
  contains_clear two_clears_then_X ∧
  ∃ pre m rest,
    two_clears_then_X = pre ++ m ++ rest ∧
    m ∈ clear_sequences ∧
    ¬ contains_clear rest ∧
    outputBuffer (onPTYData_handler (fun _ => true) two_clears_then_X
                                    initial).1 =
      match rest with
      | [] => []
      | _ :: _ => [{| seq := 1; data := rest |}]
      end.
Proof.
  assert (H : contains_clear two_clears_then_X).
  { exists [], [27; 91; 50; 74]%N, (str "foo" ++ [27; 99] ++ str "X")%N.
    split; [|reflexivity]. apply list_elem_of_here. }
  split; [exact H|].
  exact (C3_clear_screen_truncates (fun _ => true) two_clears_then_X initial H).
Defined.

(** The example of the specification: two clear sequences followed by
    the text X leave exactly X, whatever was retained before. *)
Example two_clears_leave_X :
  let st := after (appends (fun _ => true) [str "old"; str "older"])
                  Pty.initial in
  outputBuffer (onPTYData_handler (fun _ => true) two_clears_then_X st).1 =
  [{| seq := 3; data := str "X" |}].
Proof. vm_compute. done. Qed.

End OutputLogClaims.

(** ** The PTY supervisor *)

Section PtyClaims.
Import Pty.

Example live_pty_is_live :
  live live_pty = true ∧
  (fun h => (pid h, pty_cols h, pty_rows h)) <$> ptyProcess live_pty
    = Some (0%nat, 80, 24).
Proof. vm_compute. done. Qed.





End PtyClaims.

(** ** The sync handshake *)

Section SyncClaims.
Import WebServer.

Lemma last_List_last {A} (l : list A) (d : A) :
  l ≠ [] → last l = Some (List.last l d).
Proof.
  induction l as [|x [|y l] IH]; [done|done|].
  intros _. rewrite last_cons_cons. by apply IH.
Qed.

Lemma filter_none {A} (P : A → Prop) `{!∀ x, Decision (P x)} (l : list A) :
  (∀ i x, l !! i = Some x → ¬ P x) → filter P l = [].
Proof.
  induction l as [|x l IH]; intros Hl; [done|].
  rewrite filter_cons_False; [|by apply (Hl 0%nat)].
  apply IH. intros i y. apply (Hl (S i)).
Qed.

Lemma rate_check_info now c :
  clientInfo (rate_check now c).1 = clientInfo c.
Proof. unfold rate_check. by case_match. Qed.

Lemma sync_reply_meets_spec ws st lastSeq :
  log_inv st →
  match sync_reply (outputBuffer st) lastSeq with
  | Some m => [Send ws m]
  | None => []
  end = sync_reply_spec ws (outputBuffer st) lastSeq.
Proof.
  intros [Hnum Hone]. unfold sync_reply, sync_reply_spec.
  destruct (outputBuffer st) as [|first rest] eqn:Hb; [done|].
  assert (1 ≤ seq first).
  { rewrite (Hnum 0%nat first eq_refl). lia. }
  destruct (Z.ltb_spec 0 lastSeq), (Z.leb_spec (seq first) lastSeq);
    case_decide; try lia; simpl.
  - destruct (filter _ (first :: rest)) as [|d delta] eqn:Hd; [done|].
    by rewrite (last_List_last _ d).
  - by rewrite (last_List_last _ first).
  - by rewrite (last_List_last _ first).
Qed.

(** C2: in every state the relay reaches, the reply to the first [sync]
    of a connection is the one the specification describes: none for an
    empty log; for [lastSeq] at least the oldest retained number, a
    [history-delta] of exactly the records with a greater number, in
    order, and none when there is no such record; otherwise a [history]
    of the whole retained log, in order, with the newest number.  A
    [lastSeq] that is not a number counts as 0. *)
Theorem C2_first_sync_reply (es : list Event) (pty0 pty : Pty.State)
    (now : Z) (ws : conn) (c : Closure) (lastSeq : option Z) :
  closures (after es pty0) !! ws = Some c →
  synced (clientInfo c) = false →
  (rate_check now c).2 = true →
  (on_message now ws (MsgSync lastSeq) (after es pty0) pty).2 =
  sync_reply_spec ws (outputBuffer (after es pty0)) (default 0 lastSeq).
Proof.
  intros Hc Hs Hr. unfold on_message. rewrite Hc.
  destruct (rate_check now c) as [c' pass] eqn:E. simpl in Hr. subst pass.
  assert (Hi : clientInfo c' = clientInfo c).
  { change c' with (c', true).1. rewrite <- E. apply rate_check_info. }
  unfold dispatch. rewrite Hi, Hs. simpl.
  apply sync_reply_meets_spec, log_inv_after.
Qed.

(** The hypotheses of C2 hold of the connection of
    [relay_two_records] on its first [sync], sent with [lastSeq] 1. *)
Lemma C2_witness :
  (on_message 1001 7%nat (MsgSync (Some 1)) relay_two_records Pty.initial).2 =
  sync_reply_spec 7%nat (outputBuffer relay_two_records) 1.
Proof.
  apply (C2_first_sync_reply
           [EvConnection 1000 1000 7%nat;
            EvPtyData (fun _ => true) (str "ab");
            EvPtyData (fun _ => true) (str "cd")]
           Pty.initial Pty.initial 1001 7%nat fresh_closure (Some 1));
    reflexivity.
Defined.

(** The three kinds of reply on the relay with records 1 and 2. *)
Example sync_replies :
  sync_reply_spec 7%nat (outputBuffer relay_two_records) 1
    = [Send 7%nat (HistoryDelta [str "cd"] 2)] ∧
  sync_reply_spec 7%nat (outputBuffer relay_two_records) 2 = [] ∧
  sync_reply_spec 7%nat (outputBuffer relay_two_records) 0
    = [Send 7%nat (History [str "ab"; str "cd"] 2)] ∧
  sync_reply_spec 7%nat (outputBuffer initial) 5 = [].
Proof. vm_compute. done. Qed.

(** A watermark equal to the newest retained number gets no reply. *)
Lemma sync_at_newest_no_reply ws st newest :
  log_inv st →
  last (outputBuffer st) = Some newest →
  sync_reply_spec ws (outputBuffer st) (seq newest) = [].
Proof.
  intros [Hnum Hone] Hl. unfold sync_reply_spec.
  destruct (outputBuffer st) as [|oldest rest] eqn:Hb; [done|].
  rewrite last_lookup in Hl.
  case_decide as Hle.
  - replace (filter _ _) with (@nil BufferEntry); [done|].
    symmetry. apply filter_none. intros i e He.
    rewrite (Hnum _ _ He), (Hnum _ _ Hl).
    apply lookup_lt_Some in He. simpl in *. lia.
  - exfalso. apply Hle.
    rewrite (Hnum 0%nat oldest eq_refl), (Hnum _ _ Hl). simpl. lia.
Qed.

(** A second [sync] on the same connection gets no reply. *)
Lemma later_sync_ignored now ws c lastSeq st pty :
  closures st !! ws = Some c →
  synced (clientInfo c) = true →
  (on_message now ws (MsgSync lastSeq) st pty).2 = [].
Proof.
  intros Hc Hs. unfold on_message. rewrite Hc.
  destruct (rate_check now c) as [c' pass] eqn:E.
  assert (Hi : clientInfo c' = clientInfo c).
  { change c' with (c', pass).1. rewrite <- E. apply rate_check_info. }
  destruct pass; [|done]. unfold dispatch. by rewrite Hi, Hs.
Qed.

End SyncClaims.

(** ** Size arbitration *)

Section SizeClaims.
Import WebServer.

Lemma calculateMinSize_least local cl :
  least_dimension cols local.1 cl (calculateMinSize local cl).1 ∧
  least_dimension rows local.2 cl (calculateMinSize local cl).2.
Proof.
  unfold calculateMinSize.
  apply (map_fold_weak_ind
           (fun m cl => least_dimension cols local.1 cl m.1 ∧
                        least_dimension rows local.2 cl m.2)).
  - split; (split; [by left|]; split; [lia|]; by intros ws ci ?%lookup_empty_Some).
  - intros ws ci m r Hfresh [(Hc1 & Hc2 & Hc3) (Hr1 & Hr2 & Hr3)].
    destruct (Z.ltb_spec 0 (cols ci)) as [Hpc|Hpc];
      destruct (Z.ltb_spec 0 (rows ci)) as [Hpr|Hpr]; simpl.
    2-4: split; (split; [|split]);
         [ destruct Hc1 as [?|(w & i & ? & ? & ?)]; [by left|right];
           exists w, i; rewrite lookup_insert_ne; [done|congruence]
         | done
         | intros w i [[-> ->]|[? ?]]%lookup_insert_Some [? ?];
           [lia|by eapply Hc3]
         | destruct Hr1 as [?|(w & i & ? & ? & ?)]; [by left|right];
           exists w, i; rewrite lookup_insert_ne; [done|congruence]
         | done
         | intros w i [[-> ->]|[? ?]]%lookup_insert_Some [? ?];
           [lia|by eapply Hr3] ].
    split.
    + split; [|split].
      * destruct (Z.min_spec r.1 (cols ci)) as [[_ ->]|[_ ->]].
        -- destruct Hc1 as [?|(w & i & ? & ? & ?)]; [by left|right].
           exists w, i. rewrite lookup_insert_ne; [done|congruence].
        -- right. exists ws, ci. by rewrite lookup_insert_eq.
      * lia.
      * intros w i [[-> ->]|[? Hw]]%lookup_insert_Some Hp; [lia|].
        specialize (Hc3 _ _ Hw Hp). lia.
    + split; [|split].
      * destruct (Z.min_spec r.2 (rows ci)) as [[_ ->]|[_ ->]].
        -- destruct Hr1 as [?|(w & i & ? & ? & ?)]; [by left|right].
           exists w, i. rewrite lookup_insert_ne; [done|congruence].
        -- right. exists ws, ci. by rewrite lookup_insert_eq.
      * lia.
      * intros w i [[-> ->]|[? Hw]]%lookup_insert_Some Hp; [lia|].
        specialize (Hr3 _ _ Hw Hp). lia.
Qed.

(** C4: with a live PTY and a local terminal of positive size, size
    re-arbitration issues one resize to the PTY, whose columns and rows
    are each the least of the local dimension and that dimension of every
    connected client with a positive size; with no client connected it is
    the local size. *)
Theorem C4_effective_size_is_minimum (st : State) (pty : Pty.State)
    (h : Pty.IPty) :
  Pty.ptyProcess pty = Some h →
  0 < Pty.localCols pty →
  0 < Pty.localRows pty →
  ∃ c r,
    least_dimension cols (Pty.localCols pty) (clients st) c ∧
    least_dimension rows (Pty.localRows pty) (clients st) r ∧
    Pty.calls (applyMinSize st pty) =
      Pty.calls pty ++ [Pty.CallResize (Pty.pid h) c r] ∧
    pty_size (applyMinSize st pty) = Some (c, r) ∧
    (clients st = ∅ → c = Pty.localCols pty ∧ r = Pty.localRows pty).
Proof.
  intros Hh Hc Hr.
  destruct (calculateMinSize_least (Pty.getLocalSize pty) (clients st))
    as [Lc Lr]. simpl in Lc, Lr.
  unfold applyMinSize, pty_size. case_decide as Hsz.
  - apply map_size_empty_iff in Hsz.
    exists (Pty.localCols pty), (Pty.localRows pty).
    unfold Pty.resizePTY. rewrite Hh, Hsz. simpl.
    split_and!; try done.
    + split_and!; [by left|lia|by intros ws ci ?%lookup_empty_Some].
    + split_and!; [by left|lia|by intros ws ci ?%lookup_empty_Some].
  - set (m := calculateMinSize (Pty.getLocalSize pty) (clients st)) in *.
    exists m.1, m.2.
    assert (0 < m.1).
    { destruct Lc as ([->|(w & i & _ & [? ?] & ->)] & _); simpl; lia. }
    assert (0 < m.2).
    { destruct Lr as ([->|(w & i & _ & [? ?] & ->)] & _); simpl; lia. }
    destruct (Z.ltb_spec 0 m.1); [|lia].
    destruct (Z.ltb_spec 0 m.2); [|lia]. simpl.
    unfold Pty.resizePTY. rewrite Hh. simpl.
    split_and!; [exact Lc|exact Lr|done|done|].
    intros Hemp. by rewrite Hemp, map_size_empty in Hsz.
Qed.

(** The hypotheses of C4 hold of the local 100x40 PTY and the two
    clients of the specification's example. *)
Lemma C4_witness :
  ∃ h, Pty.ptyProcess local_100x40 = Some h ∧
  ∃ c r,
    least_dimension cols (Pty.localCols local_100x40)
                    (clients (after two_clients Pty.initial)) c ∧
    least_dimension rows (Pty.localRows local_100x40)
                    (clients (after two_clients Pty.initial)) r ∧
    Pty.calls (applyMinSize (after two_clients Pty.initial) local_100x40) =
      Pty.calls local_100x40 ++ [Pty.CallResize (Pty.pid h) c r] ∧
    pty_size (applyMinSize (after two_clients Pty.initial) local_100x40)
      = Some (c, r) ∧
    (clients (after two_clients Pty.initial) = ∅ →
     c = Pty.localCols local_100x40 ∧ r = Pty.localRows local_100x40).
Proof.
  eexists. split; [reflexivity|].
  apply (C4_effective_size_is_minimum (after two_clients Pty.initial)
                                      local_100x40);
    reflexivity.
Defined.

(** The example of the specification: local 100x40 with clients 80x24
    and 120x50 gives 80x24; once the 80x24 client has closed, 100x40. *)
Example arbitration_example :
  pty_size (applyMinSize (after two_clients Pty.initial) local_100x40)
    = Some (80, 24) ∧
  pty_size (run (two_clients ++ [EvWsClose 1%nat]) (initial, local_100x40)).1.2
    = Some (100, 40).
Proof. vm_compute. done. Qed.

(** In every state the relay reaches, every connected client has a
    positive size, so none is left out of the minimum. *)
Lemma sizes_in_bounds_put st ws c0 c1 :
  sizes_in_bounds st →
  closures st !! ws = Some c0 →
  clientInfo c1 = clientInfo c0 ∨
    (0 < cols (clientInfo c1) ≤ 500 ∧ 0 < rows (clientInfo c1) ≤ 200) →
  sizes_in_bounds
    (set_clients (connectedClients st) (<[ws:=c1]> (closures st))
                 (clientIdCounter st) st).
Proof.
  intros Hb Hc0 H1 w c. simpl.
  intros [[_ <-]|[_ Hw]]%lookup_insert_Some.
  - destruct H1 as [->|?]; [by eapply Hb|done].
  - by eapply Hb.
Qed.

Lemma sizes_in_bounds_step e s :
  sizes_in_bounds s.1 → sizes_in_bounds (step e s).1.1.
Proof.
  destruct s as [st pty]. simpl. intros Hb.
  destruct e; simpl; try done.
  - unfold on_connection. case_decide; simpl; [done|].
    intros w c. simpl.
    intros [[_ <-]|[_ Hw]]%lookup_insert_Some; [simpl; lia|by eapply Hb].
  - unfold on_message. destruct (closures st !! ws) as [c0|] eqn:Hc0; [|done].
    destruct (rate_check now c0) as [c' pass] eqn:E.
    assert (Hi : clientInfo c' = clientInfo c0).
    { change c' with (c', pass).1. rewrite <- E. apply rate_check_info. }
    destruct pass; [|apply (sizes_in_bounds_put _ _ c0); auto].
    assert (Hsame : ∀ st', st' = set_clients (connectedClients st)
                      (<[ws:=c']> (closures st)) (clientIdCounter st) st →
                    sizes_in_bounds st').
    { intros ? ->. apply (sizes_in_bounds_put _ _ c0); auto. }
    unfold dispatch.
    destruct msg as [ls|[text|]|[cs|] [rs|]|[|]| |]; simpl;
      try (by apply Hsame).
    + destruct (synced (clientInfo c')); simpl; [by apply Hsame|].
      apply (sizes_in_bounds_put _ _ c0); auto.
      right. simpl. rewrite Hi. by eapply Hb.
    + destruct (_ && _) eqn:Hcond; simpl; [|by apply Hsame].
      apply (sizes_in_bounds_put _ _ c0); auto.
      right. simpl. rewrite !andb_true_iff in Hcond. lia.
  - unfold on_ws_error. by case_match.
  - unfold on_ws_close. by case_match.
  - unfold onPTYData_handler. by destruct (retain _ _ _).
Qed.

Lemma sizes_in_bounds_run es s :
  sizes_in_bounds s.1 → sizes_in_bounds (run es s).1.1.
Proof. apply run_invariant, sizes_in_bounds_step. Qed.

Lemma clients_positive es pty ws ci :
  clients (after es pty) !! ws = Some ci → positive_size ci.
Proof.
  unfold clients. rewrite map_lookup_filter_Some, lookup_fmap_Some.
  intros [(c & <- & Hc) _].
  assert (Hb : sizes_in_bounds (after es pty)).
  { apply sizes_in_bounds_run. intros w c'. simpl.
    by intros ?%lookup_empty_Some. }
  destruct (Hb _ _ Hc). split; lia.
Qed.

(** What the table holds for a client: 80x24 from the moment the
    connection is accepted, and the declared size after each accepted
    [resize] frame. *)
Lemma accepted_client_size now_id now ws st :
  (size (clients st) < MAX_CONNECTIONS)%nat →
  ∃ ci, clients (on_connection now_id now ws st).1 !! ws = Some ci ∧
        cols ci = 80 ∧ rows ci = 24.
Proof.
  intros Hroom. unfold on_connection. case_decide; [lia|]. simpl.
  eexists. split.
  - unfold clients. simpl.
    apply map_lookup_filter_Some. split; [|set_solver].
    by rewrite lookup_fmap, lookup_insert_eq.
  - done.
Qed.

Lemma declared_client_size now ws cs rs st pty c :
  closures st !! ws = Some c →
  ws ∈ connectedClients st →
  (rate_check now c).2 = true →
  0 < cs ≤ 500 → 0 < rs ≤ 200 →
  ∃ ci,
    clients (on_message now ws (MsgResize (Some cs) (Some rs)) st pty).1.1
      !! ws = Some ci ∧
    cols ci = cs ∧ rows ci = rs.
Proof.
  intros Hc Hws Hr Hcs Hrs. unfold on_message. rewrite Hc.
  destruct (rate_check now c) as [c' pass]. simpl in Hr. subst pass.
  unfold dispatch.
  destruct (Z.ltb_spec 0 cs); [|lia]. destruct (Z.leb_spec cs 500); [|lia].
  destruct (Z.ltb_spec 0 rs); [|lia]. destruct (Z.leb_spec rs 200); [|lia].
  simpl. eexists. split.
  - unfold clients. simpl.
    apply map_lookup_filter_Some. split; [|done].
    by rewrite lookup_fmap, lookup_insert_eq.
  - done.
Qed.

End SizeClaims.

(** ** The rate limit *)

Section RateClaims.
Import WebServer.







(** The burst, run: the first hundred frames pass, the last does not,
    nothing is sent or closed for it, and the connection stays. *)
Example burst_of_101 :
  let ds := deliveries 7%nat burst
              (run [EvConnection 1000 1000 7%nat] (initial, Pty.initial)).1 in
  passed <$> ds = replicate 100 true ++ [false] ∧
  last ds = Some {| passed := false; effects := []; connected_after := true |}.
Proof. vm_compute. done. Qed.

(** The window is a fixed one: it restarts with the first frame that
    arrives more than [MSG_RATE_WINDOW_MS] after its start, and that
    frame passes whatever was counted before. *)
Lemma rate_check_new_window now c :
  MSG_RATE_WINDOW_MS < now - msgWindowStart c →
  rate_check now c =
  ({| clientInfo := clientInfo c; msgCount := 1; msgWindowStart := now |},
   true).
Proof.
  intros H. unfold rate_check.
  by destruct (Z.ltb_spec MSG_RATE_WINDOW_MS (now - msgWindowStart c)); [|lia].
Qed.

End RateClaims.

(** ** Token comparison *)

Section TokenClaims.
Import WebServer.

Lemma length_utf8_fit cs : ∀ room, (length (utf8_fit room cs) ≤ room)%nat.
Proof.
  induction cs as [|c cs IH]; intros room; simpl; [lia|].
  destruct (Nat.leb_spec (length c) room); simpl; [|lia].
  rewrite length_app. specialize (IH (room - length c)%nat). lia.
Qed.

(** [buf.write] keeps the length of the buffer. *)
Lemma length_Buffer_write buf s : length (Buffer_write buf s) = length buf.
Proof.
  unfold Buffer_write. rewrite length_app, length_drop.
  pose proof (length_utf8_fit (utf8_chars s) (length buf)). lia.
Qed.

(** [timingSafeEqual] never raises in [safeEqual]: the two buffers have
    the same length. *)
Lemma safeEqual_total a b : is_Some (safeEqual a b).
Proof.
  unfold safeEqual, timingSafeEqual.
  rewrite !length_Buffer_write. unfold Buffer_alloc.
  rewrite !length_replicate. by case_decide.
Qed.

Lemma safeEqual_unequal_length a b :
  length a ≠ length b → safeEqual a b = Some false.
Proof.
  intros Hne. destruct (safeEqual_total a b) as [r Hr]. rewrite Hr.
  unfold safeEqual in Hr. destruct (timingSafeEqual _ _); [|done].
  rewrite bool_decide_eq_false_2, andb_false_r in Hr by done.
  by injection Hr as <-.
Qed.

(** A strict prefix of a string, and so a strict extension too, differs
    from it in length. *)
Lemma strict_prefix_length (a b : jsstring) :
  a `prefix_of` b → a ≠ b → length a ≠ length b.
Proof.
  intros [k ->] Hne. rewrite length_app.
  destruct k; [by rewrite app_nil_r in Hne|]. simpl. lia.
Qed.

(** C10: when [a] and [b] differ in length, [safeEqual a b] returns
    false, although both were written into buffers of one length before
    the byte comparison.  So a candidate of another length than the
    server token, such as a strict prefix or an extension of it, is
    refused as a query token, as a cookie, and on a WebSocket upgrade. *)
Theorem C10_unequal_length_not_equal (a b : jsstring) :
  length a ≠ length b →
  safeEqual a b = Some false ∧
  ∀ st, serverToken st = b →
        requireAuth (Some a) (Some a) st = Some Forbidden ∧
        isAuthenticated (Some a) st = Some false ∧
        verifyClient_cookie (Some a) st = Some false.
Proof.
  intros Hne. split; [by apply safeEqual_unequal_length|].
  intros st <-.
  unfold requireAuth, isAuthenticated, verifyClient_cookie.
  destruct a as [|x a]; simpl.
  - split_and!; try done. by apply safeEqual_unequal_length.
  - rewrite (safeEqual_unequal_length (x :: a) (serverToken st) Hne). done.
Qed.

(** The hypothesis of C10 holds of a strict prefix of the token. *)
Lemma C10_witness :
  safeEqual (str "abcd") (str "abcdef") = Some false ∧
  ∀ st, serverToken st = str "abcdef" →
        requireAuth (Some (str "abcd")) (Some (str "abcd")) st
          = Some Forbidden ∧
        isAuthenticated (Some (str "abcd")) st = Some false ∧
        verifyClient_cookie (Some (str "abcd")) st = Some false.
Proof.
  apply (C10_unequal_length_not_equal (str "abcd") (str "abcdef")).
  vm_compute. discriminate.
Defined.

(** The comparison at work: equal tokens, a strict prefix, an extension,
    and a candidate of the right length that differs. *)
Example safeEqual_examples :
  safeEqual (str "abcdef") (str "abcdef") = Some true ∧
  safeEqual (str "abcd") (str "abcdef") = Some false ∧
  safeEqual (str "abcdefgh") (str "abcdef") = Some false ∧
  safeEqual (str "abcdeX") (str "abcdef") = Some false.
Proof. vm_compute. done. Qed.

End TokenClaims.

(** ** The tunnel supervisor *)

Section TunnelClaims.
Import Tunnel.

Lemma crashes_app fx1 fx2 : crashes (fx1 ++ fx2) = crashes fx1 ++ crashes fx2.
Proof. unfold crashes. apply omap_app. Qed.

Lemma crashes_of_callbacks code l :
  crashes ((fun cb => Crash cb code) <$> l) = (fun cb => (cb, code)) <$> l.
Proof.
  induction l as [|cb l IH]; [done|].
  unfold crashes in *. simpl. f_equal. exact IH.
Qed.

(** Only the [close] handler calls crash callbacks. *)
Lemma crashes_other_event e st :
  is_close e = false → crashes (step e st).2 = [].
Proof.
  destruct e; simpl; try done; intros _.
  - unfold on_output. repeat case_match; by simplify_eq.
  - unfold on_timeout, stopTunnel. repeat case_match; by simplify_eq.
  - unfold on_error. by case_match.
  - unfold stopTunnel. by case_match.
Qed.

(** Only the [close] handler clears the intentional-stop flag. *)
Lemma intentionalStop_kept e st :
  is_close e = false → intentionalStop st = true →
  intentionalStop (step e st).1 = true.
Proof.
  destruct e; simpl; try done; intros _ Hs.
  - unfold on_output. repeat case_match; simplify_eq; by simpl.
  - unfold on_timeout, stopTunnel. repeat case_match; simplify_eq; by simpl.
  - unfold on_error. by case_match.
  - unfold stopTunnel. by case_match.
Qed.

Lemma no_crash_while_stopping es : ∀ st,
  forallb (fun e => negb (is_close e)) es = true →
  intentionalStop st = true →
  crashes (run es st).2 = [] ∧ intentionalStop (run es st).1 = true.
Proof.
  induction es as [|e es IH]; intros st Hes Hs; [done|].
  simpl in Hes. apply andb_prop in Hes as [He%negb_true_iff Hes].
  simpl.
  destruct (step e st) as [st1 fx1] eqn:E1.
  destruct (run es st1) as [st2 fx2] eqn:E2. simpl.
  assert (H1 : intentionalStop st1 = true).
  { change st1 with (st1, fx1).1. rewrite <- E1.
    by apply intentionalStop_kept. }
  destruct (IH st1 Hes H1) as [Hc Hi]. rewrite E2 in Hc, Hi.
  simpl in Hc, Hi. split; [|done]. rewrite crashes_app.
  change fx1 with (st1, fx1).2. rewrite <- E1.
  by rewrite crashes_other_event, Hc.
Qed.

Lemma crashes_on_close p code st :
  intentionalStop st = true → crashes (on_close p code st).2 = [].
Proof.
  intros Hs. unfold on_close. rewrite Hs.
  destruct (handlers st !! p) as [c|]; [|done]. simpl.
  by destruct (urlFound c).
Qed.

(** C7: when the tunnel subprocess exits, each registered crash callback
    is called once, with the exit code, if the URL had been found and the
    intentional-stop flag is not set, and no crash callback is called
    otherwise; no other event calls one.  An exit before the URL was
    found rejects the start promise instead.  After [stopTunnel] on a
    running tunnel, whatever happens before the subprocess exits, its
    exit calls no crash callback. *)
Theorem C7_crash_callbacks_on_unexpected_exit (p : proc) (code : option Z)
    (st : State) (c : Closure) :
  handlers st !! p = Some c →
  crashes (on_close p code st).2 =
    (if urlFound c && negb (intentionalStop st)
     then (fun cb => (cb, code)) <$> crashCallbacks st
     else []) ∧
  (urlFound c = false →
   (on_close p code st).2 = [Reject p (ExitedWithCode code)]) ∧
  (∀ e, is_close e = false → crashes (step e st).2 = []) ∧
  (∀ es q code',
     is_Some (tunnelProcess st) →
     forallb (fun e => negb (is_close e)) es = true →
     crashes (run (EvStop :: es ++ [EvClose q code']) st).2 = []).
Proof.
  intros Hc. split_and!.
  - unfold on_close. rewrite Hc. simpl.
    destruct (urlFound c), (intentionalStop st); simpl; try done.
    apply crashes_of_callbacks.
  - intros Hu. unfold on_close. by rewrite Hc, Hu.
  - intros e. apply crashes_other_event.
  - intros es q code' [t Ht] Hes.
    cbn [run step]. unfold stopTunnel at 1. rewrite Ht.
    set (st1 := Build_State _ _ _ _ _).
    destruct (run (es ++ [EvClose q code']) st1) as [st2 fx2] eqn:E2.
    simpl. change fx2 with (st2, fx2).2. rewrite <- E2. clear E2.
    assert (Hrun : ∀ es1 es2 s,
              (run (es1 ++ es2) s).2
              = (run es1 s).2 ++ (run es2 (run es1 s).1).2).
    { clear. induction es1 as [|e es1 IH]; intros es2 s; simpl.
      - by destruct (run es2 s).
      - destruct (step e s) as [s1 f1]. specialize (IH es2 s1).
        destruct (run (es1 ++ es2) s1), (run es1 s1). simpl in *.
        rewrite IH. by rewrite app_assoc. }
    rewrite Hrun, crashes_app.
    destruct (no_crash_while_stopping es st1 Hes eq_refl) as [-> Hi].
    simpl. destruct (on_close q code' (run es st1).1) as [s3 f3] eqn:E3.
    simpl. rewrite app_nil_r.
    change f3 with (s3, f3).2. rewrite <- E3. by apply crashes_on_close.
Qed.

(** The hypothesis of C7 holds of the established tunnel and its
    process. *)
Lemma C7_witness :
  crashes (on_close 0%nat (Some 1) established_tunnel).2 =
    (if true && negb (intentionalStop established_tunnel)
     then (fun cb => (cb, Some 1)) <$> crashCallbacks established_tunnel
     else []) ∧
  (true = false →
   (on_close 0%nat (Some 1) established_tunnel).2
   = [Reject 0%nat (ExitedWithCode (Some 1))]) ∧
  (∀ e, is_close e = false → crashes (step e established_tunnel).2 = []) ∧
  (∀ es q code',
     is_Some (tunnelProcess established_tunnel) →
     forallb (fun e => negb (is_close e)) es = true →
     crashes (run (EvStop :: es ++ [EvClose q code']) established_tunnel).2
     = []).
Proof.
  apply (C7_crash_callbacks_on_unexpected_exit 0%nat (Some 1)
           established_tunnel
           {| urlFound := true; timerPending := false |}).
  reflexivity.
Defined.

(** The two scenarios of the specification: a crash after the URL was
    found calls the one registered callback once with the exit code; an
    intentional stop followed by the exit calls none. *)
Example crash_and_stop :
  crashes (run [EvClose 0%nat (Some 1)] established_tunnel).2
    = [(SessionTunnelCrash, Some 1)] ∧
  crashes (run [EvStop; EvClose 0%nat None] established_tunnel).2 = [] ∧
  (run [EvStart; EvClose 0%nat (Some 1)] initial).2
    = [Reject 0%nat (ExitedWithCode (Some 1))].
Proof. vm_compute. done. Qed.

End TunnelClaims.

(** ** The orchestrator *)

Section SessionClaims.
Import Session.

Lemma at_most_once_refl st : torn_down_at_most_once st st.
Proof. by left. Qed.

Lemma at_most_once_trans st1 st2 st3 :
  torn_down_at_most_once st1 st2 → torn_down_at_most_once st2 st3 →
  torn_down_at_most_once st1 st3.
Proof.
  intros [[H1 G1]|(G1 & G1' & H1)] [[H2 G2]|(G2 & G2' & H2)].
  - left. split; congruence.
  - right. split_and!; congruence.
  - right. split_and!; congruence.
  - congruence.
Qed.

Lemma cleanup_at_most_once st : torn_down_at_most_once st (cleanup st).
Proof.
  unfold cleanup. destruct (cleaningUp st) eqn:G; [by left|].
  destruct (WebServer.stopWebServer _ _) as [[web1 pty2] fx].
  destruct (Tunnel.stopTunnel _) as [tunnel1 tfx].
  right. by rewrite G.
Qed.

Lemma cleanup_sets_guard st : cleaningUp (cleanup st) = true.
Proof.
  unfold cleanup. destruct (cleaningUp st) eqn:G; [done|].
  destruct (WebServer.stopWebServer _ _) as [[web1 pty2] fx].
  by destruct (Tunnel.stopTunnel _).
Qed.

Lemma exit_callbacks_at_most_once is_open code cbs : ∀ st,
  torn_down_at_most_once st (foldl (run_exit_callback is_open code) st cbs).
Proof.
  induction cbs as [|cb cbs IH]; intros st; simpl; [by left|].
  eapply at_most_once_trans; [|apply IH].
  destruct cb; simpl; try (by left). apply cleanup_at_most_once.
Qed.

Lemma fire_at_most_once is_open t st :
  torn_down_at_most_once st (fire is_open t st).
Proof.
  destruct t; simpl.
  - destruct (onSIGINT st); [|by left].
    eapply at_most_once_trans; [|apply cleanup_at_most_once]. by left.
  - destruct (onSIGTERM st); [|by left].
    eapply at_most_once_trans; [|apply cleanup_at_most_once]. by left.
  - eapply at_most_once_trans; [apply exit_callbacks_at_most_once|].
    by left.
  - by left.
  - apply cleanup_at_most_once.
Qed.

Lemma run_at_most_once is_open ts : ∀ st,
  torn_down_at_most_once st (run is_open ts st).
Proof.
  unfold run. induction ts as [|t ts IH]; intros st; simpl; [by left|].
  eapply at_most_once_trans; [apply fire_at_most_once|apply IH].
Qed.

(** C8: [cleanup] is idempotent, and over any sequence of teardown
    triggers (the two signals, the exit of the PTY, the exit of the
    tunnel, direct calls of [cleanup]), in any order and number, the
    teardown body (kill PTY, stop relay, stop tunnel, exit) runs at most
    once; it has run exactly once as soon as [cleanup] was called on a
    session that was not yet cleaning up. *)
Theorem C8_teardown_runs_at_most_once (is_open : WebServer.conn → bool)
    (ts : list Trigger) (st : State) :
  cleanup (cleanup st) = cleanup st ∧
  torn_down_at_most_once st (run is_open ts st) ∧
  (∀ ts', cleaningUp st = false →
          steps (run is_open (ts ++ CleanupCalled :: ts') st)
          = steps st ++ teardown).
Proof.
  split_and!.
  - unfold cleanup at 1. by rewrite cleanup_sets_guard.
  - apply run_at_most_once.
  - intros ts' G. unfold run. rewrite foldl_app. simpl.
    fold (run is_open ts st).
    set (st1 := run is_open ts st).
    set (st2 := cleanup st1).
    fold (run is_open ts' st2).
    assert (H1 : torn_down_at_most_once st st1) by apply run_at_most_once.
    assert (H2 : torn_down_at_most_once st1 st2) by apply cleanup_at_most_once.
    assert (H3 : torn_down_at_most_once st2 (run is_open ts' st2))
      by apply run_at_most_once.
    assert (G2 : cleaningUp st2 = true) by apply cleanup_sets_guard.
    destruct H3 as [[-> _]|(? & _)]; [|congruence].
    destruct H1 as [[E1 G1]|(_ & G1 & E1)],
             H2 as [[E2 G2']|(G2' & _ & E2)]; try congruence.
Qed.

(** A signal and the exit of the PTY, in either order and repeated,
    tear the running session down once. *)
Example signal_and_pty_exit :
  steps (run (fun _ => true) [SIGINT; PtyExited 0; SIGTERM] running_session)
    = teardown ∧
  steps (run (fun _ => true) [PtyExited 0; SIGINT; SIGINT; PtyExited 0]
             running_session)
    = teardown ∧
  steps (run (fun _ => true) [TunnelClosed 0%nat (Some 1)] running_session)
    = [].
Proof. vm_compute. done. Qed.

End SessionClaims.

(** ** The log and the stream of the PTY *)

Section LogStream.
Import WebServer.

Lemma length_retained sq chunk pushed b :
  retain sq chunk pushed = Some b →
  (length pushed ≤ S MAX_BUFFER_SIZE)%nat →
  (length b ≤ MAX_BUFFER_SIZE)%nat.
Proof.
  unfold retain, MAX_BUFFER_SIZE, BUFFER_TRIM_SIZE.
  destruct (Regex.test CLEAR_SCREEN_RE chunk).
  - destruct (last _); [|done]. intros [= <-] _.
    destruct (slice_from _ _); simpl; lia.
  - case_decide; intros [= <-] ?; [rewrite length_drop|]; lia.
Qed.

Lemma log_bounded_step e s :
  (length (outputBuffer s.1) ≤ MAX_BUFFER_SIZE)%nat →
  (length (outputBuffer (step e s).1.1) ≤ MAX_BUFFER_SIZE)%nat.
Proof.
  destruct s as [st pty]. simpl. intros Hb.
  destruct e; simpl; try done.
  - unfold on_connection. by case_decide.
  - unfold on_message. destruct (closures st !! ws); [|done].
    destruct (rate_check now c) as [c' [|]]; [|done].
    unfold dispatch. by repeat case_match.
  - unfold on_ws_error. by case_match.
  - unfold on_ws_close. by case_match.
  - unfold onPTYData_handler.
    destruct (retain_total (nextSeq st) chunk
                (outputBuffer st ++ [{| seq := nextSeq st; data := chunk |}]))
      as [b Hr].
    rewrite Hr. simpl. apply (length_retained _ _ _ _ Hr).
    rewrite length_app. simpl. lia.
  - unfold MAX_BUFFER_SIZE. lia.
Qed.

(** X1: in every state the relay reaches, the log holds at most
    [MAX_BUFFER_SIZE] records. *)
Theorem X1_log_never_exceeds_high_water (es : list Event) (pty : Pty.State) :
  (length (outputBuffer (after es pty)) ≤ MAX_BUFFER_SIZE)%nat.
Proof.
  apply (run_invariant
           (fun st => (length (outputBuffer st) ≤ MAX_BUFFER_SIZE)%nat)).
  - apply log_bounded_step.
  - simpl. lia.
Qed.

Lemma concat_data_drop k (b : list BufferEntry) :
  concat (data <$> drop k b) `suffix_of` concat (data <$> b).
Proof.
  exists (concat (data <$> take k b)).
  by rewrite <- concat_app, <- fmap_app, take_drop.
Qed.

Lemma log_text_step e s h :
  log_text s.1 `suffix_of` concat h →
  log_text (step e s).1.1 `suffix_of` concat (record_chunk h e).
Proof.
  destruct s as [st pty]. unfold log_text. simpl. intros Hs.
  destruct e; simpl; try done.
  - unfold on_connection. by case_decide.
  - unfold on_message. destruct (closures st !! ws); [|done].
    destruct (rate_check now c) as [c' [|]]; [|done].
    unfold dispatch. by repeat case_match.
  - unfold on_ws_error. by case_match.
  - unfold on_ws_close. by case_match.
  - rewrite concat_app. simpl. rewrite app_nil_r.
    unfold onPTYData_handler.
    destruct (retain_total (nextSeq st) chunk
                (outputBuffer st ++ [{| seq := nextSeq st; data := chunk |}]))
      as [b Hr].
    rewrite Hr. simpl.
    assert (Hpushed :
      concat (data <$> (outputBuffer st ++ [{| seq := nextSeq st; data := chunk |}]))
        `suffix_of` concat h ++ chunk).
    { rewrite fmap_app, concat_app. simpl. rewrite app_nil_r.
      by apply suffix_app. }
    unfold retain in Hr. destruct (Regex.test CLEAR_SCREEN_RE chunk).
    + destruct (last _) as [m|]; [|done]. injection Hr as <-.
      etrans; [|apply suffix_app_r; reflexivity].
      destruct (slice_from _ _) as [|c rest] eqn:E; simpl.
      * apply suffix_nil.
      * rewrite app_nil_r, <- E. apply suffix_drop.
    + case_decide; injection Hr as <-; [|done].
      etrans; [apply concat_data_drop|done].
Qed.

Lemma log_text_run es : ∀ s h,
  log_text s.1 `suffix_of` concat h →
  log_text (run es s).1.1 `suffix_of` concat (foldl record_chunk h es).
Proof.
  induction es as [|e es IH]; intros s h Hs; [done|]. simpl.
  pose proof (log_text_step e s h Hs) as H1.
  destruct (step e s) as [s1 fx1]. specialize (IH s1 _ H1).
  by destruct (run es s1).
Qed.

(** X3: the text of the retained log is always a suffix of the text
    the PTY has emitted since the relay was last stopped: truncation and
    trimming drop from the front only, and nothing is reordered,
    repeated or altered. *)
Theorem X3_log_is_suffix_of_stream (es : list Event) (pty : Pty.State) :
  log_text (after es pty) `suffix_of` concat (emitted es).
Proof. apply (log_text_run es (initial, pty) []). apply suffix_nil. Qed.

End LogStream.

Section DeltaSync.
Import WebServer.

Lemma hist_inv_step e s h :
  log_inv s.1 → hist_inv h s.1 → hist_inv (record_chunk h e) (step e s).1.1.
Proof.
  destruct s as [st pty]. simpl. intros Hlog [Hcount Hchunk].
  destruct e; simpl; try done.
  - unfold on_connection. by case_decide.
  - unfold on_message. destruct (closures st !! ws); [|done].
    destruct (rate_check now c) as [c' [|]]; [|done].
    unfold dispatch. by repeat case_match.
  - unfold on_ws_error. by case_match.
  - unfold on_ws_close. by case_match.
  - unfold onPTYData_handler.
    set (pushed := outputBuffer st ++ _).
    assert (Hpushed : ∀ i e, pushed !! S i = Some e →
              (h ++ [chunk]) !! Z.to_nat (seq e - 1) = Some (data e)).
    { intros i e. unfold pushed.
      intros [Hi|[Hi He]]%lookup_app_Some.
      - apply lookup_app_l_Some. by eapply Hchunk.
      - apply list_lookup_singleton_Some in He as [_ <-]. simpl.
        replace (Z.to_nat (nextSeq st - 1)) with (length h) by lia.
        by rewrite list_lookup_middle. }
    destruct (retain_total (nextSeq st) chunk pushed) as [b Hr].
    rewrite Hr. simpl. split; simpl.
    { rewrite length_app. simpl. lia. }
    unfold retain in Hr. destruct (Regex.test CLEAR_SCREEN_RE chunk).
    + destruct (last _) as [m|]; [|done]. injection Hr as <-.
      intros i e. by destruct (slice_from _ _).
    + case_decide; injection Hr as <-; [|done].
      intros i e. rewrite lookup_drop.
      replace (length pushed - BUFFER_TRIM_SIZE + S i)%nat
        with (S (length pushed - BUFFER_TRIM_SIZE + i)) by lia.
      apply Hpushed.
Qed.

Lemma hist_inv_run es : ∀ s h,
  log_inv s.1 → hist_inv h s.1 →
  hist_inv (foldl record_chunk h es) (run es s).1.1.
Proof.
  induction es as [|e es IH]; intros s h Hlog Hh; [done|]. simpl.
  pose proof (hist_inv_step e s h Hlog Hh) as H1.
  pose proof (log_inv_step e s Hlog) as L1.
  destruct (step e s) as [s1 fx1]. specialize (IH s1 _ L1 H1).
  by destruct (run es s1).
Qed.

Lemma hist_inv_after es pty : hist_inv (emitted es) (after es pty).
Proof.
  apply (hist_inv_run es (initial, pty) []); [apply log_inv_initial|].
  by split.
Qed.

(** In a list of records numbered consecutively from [m], the records
    numbered above [n] are those after the first [n + 1 - m]. *)
Lemma filter_above (b : list BufferEntry) : ∀ m n,
  (∀ i e, b !! i = Some e → seq e = m + Z.of_nat i) →
  filter (fun e => n < seq e) b = drop (Z.to_nat (n + 1 - m)) b.
Proof.
  induction b as [|e b IH]; intros m n Hnum; [by rewrite drop_nil|].
  assert (He : seq e = m) by (rewrite (Hnum 0%nat e eq_refl); lia).
  assert (Hb : ∀ i e', b !! i = Some e' → seq e' = (m + 1) + Z.of_nat i).
  { intros i e' Hi. rewrite (Hnum (S i) e' Hi). lia. }
  destruct (decide (m ≤ n)) as [Hle|Hgt].
  - rewrite filter_cons_False by lia.
    rewrite (IH (m + 1) n Hb).
    by replace (Z.to_nat (n + 1 - m)) with (S (Z.to_nat (n + 1 - (m + 1))))
      by lia.
  - replace (Z.to_nat (n + 1 - m)) with 0%nat by lia. simpl.
    rewrite filter_cons_True by lia. f_equal.
    rewrite (IH (m + 1) n Hb).
    by replace (Z.to_nat (n + 1 - (m + 1))) with 0%nat by lia.
Qed.

(** X4: in every state the relay reaches, a [sync] whose [lastSeq] is at
    least the oldest retained number is answered from the stream itself:
    when chunks were emitted after number [lastSeq], by a
    [history-delta] of exactly those chunks, unaltered and in order,
    with [lastSeq] the number of the newest; otherwise, also for a
    [lastSeq] beyond every number given out, by nothing. *)
Theorem X4_delta_is_what_was_missed (es : list Event) (pty : Pty.State)
    (oldest : BufferEntry) (lastSeq : Z) :
  head (outputBuffer (after es pty)) = Some oldest →
  seq oldest ≤ lastSeq →
  sync_reply (outputBuffer (after es pty)) lastSeq =
    if decide (lastSeq < Z.of_nat (length (emitted es)))
    then Some (HistoryDelta (drop (Z.to_nat lastSeq) (emitted es))
                            (Z.of_nat (length (emitted es))))
    else None.
Proof.
  intros Hhead Hle.
  destruct (log_inv_after es pty) as [Hnum Hone].
  destruct (hist_inv_after es pty) as [Hcount Hchunk].
  set (st := after es pty) in *. set (h := emitted es) in *.
  unfold sync_reply.
  destruct (outputBuffer st) as [|first rest] eqn:Hb; [done|].
  injection Hhead as ->.
  assert (Hfirst : seq oldest = nextSeq st - Z.of_nat (length (oldest :: rest)))
    by (rewrite (Hnum 0%nat oldest eq_refl); lia).
  destruct (Z.ltb_spec 0 lastSeq); [|lia].
  destruct (Z.leb_spec (seq oldest) lastSeq); [|lia]. cbn [andb].
  rewrite (filter_above (oldest :: rest) (seq oldest) lastSeq).
  2:{ intros i e Hi. rewrite (Hnum i e Hi). lia. }
  set (k := Z.to_nat (lastSeq + 1 - seq oldest)).
  assert (Hdata : data <$> drop k (oldest :: rest)
                  = drop (Z.to_nat lastSeq) h).
  { apply list_eq. intros i.
    rewrite list_lookup_fmap, !lookup_drop.
    destruct ((oldest :: rest) !! (k + i)%nat) as [e|] eqn:He; simpl.
    - pose proof (Hnum _ _ He) as Hs.
      replace (k + i)%nat with (S (k + i - 1)) in He by lia.
      rewrite <- (Hchunk _ _ He). f_equal. lia.
    - symmetry. apply lookup_ge_None. apply lookup_ge_None in He. lia. }
  case_decide as Hlt.
  - destruct (drop k (oldest :: rest)) as [|d delta] eqn:Hd.
    { exfalso. apply (f_equal length) in Hd. rewrite length_drop in Hd.
      simpl in Hd, Hfirst. lia. }
    rewrite Hdata. do 2 f_equal.
    assert (Hl : last (d :: delta) = Some (List.last (d :: delta) d))
      by (by apply last_List_last).
    rewrite <- Hd in Hl at 1.
    rewrite last_lookup, lookup_drop, length_drop in Hl.
    rewrite (Hnum _ _ Hl).
    apply (f_equal length) in Hd. rewrite length_drop in Hd.
    simpl in *. lia.
  - replace (drop k (oldest :: rest)) with (@nil BufferEntry); [done|].
    symmetry. apply drop_ge. simpl in *. lia.
Qed.

(** The hypotheses of X4 hold of the relay with records 1 and 2 and a
    watermark of 1. *)
Lemma X4_witness :
  sync_reply
    (outputBuffer
       (after [EvPtyData (fun _ => true) (str "ab");
               EvPtyData (fun _ => true) (str "cd")] Pty.initial)) 1 =
    if decide (1 < Z.of_nat (length (emitted
               [EvPtyData (fun _ => true) (str "ab");
                EvPtyData (fun _ => true) (str "cd")])))
    then Some (HistoryDelta
                 (drop (Z.to_nat 1)
                       (emitted [EvPtyData (fun _ => true) (str "ab");
                                 EvPtyData (fun _ => true) (str "cd")]))
                 (Z.of_nat (length (emitted
                    [EvPtyData (fun _ => true) (str "ab");
                     EvPtyData (fun _ => true) (str "cd")]))))
    else None.
Proof.
  apply (X4_delta_is_what_was_missed
           [EvPtyData (fun _ => true) (str "ab");
            EvPtyData (fun _ => true) (str "cd")]
           Pty.initial {| seq := 1; data := str "ab" |} 1).
  - reflexivity.
  - simpl. lia.
Defined.

End DeltaSync.

Section Broadcast.
Import WebServer.

Lemma output_frames is_open chunk st e :
  e ∈ (onPTYData_handler is_open chunk st).2 ↔
  ∃ ws, e = Send ws (Output (nextSeq st) chunk) ∧
        is_Some (clients st !! ws) ∧ is_open ws = true.
Proof.
  unfold onPTYData_handler.
  destruct (retain_total (nextSeq st) chunk
              (outputBuffer st ++ [{| seq := nextSeq st; data := chunk |}]))
    as [b ->].
  simpl. rewrite list_elem_of_fmap. split.
  - intros ([w c] & -> & [Ho Hin]%list_elem_of_filter).
    apply elem_of_map_to_list in Hin. simpl in *. by exists w.
  - intros (w & -> & [c Hc] & Ho). exists (w, c). split; [done|].
    apply list_elem_of_filter. split; [done|].
    by apply elem_of_map_to_list.
Qed.

(** X5: a chunk of PTY output is sent, whole and under the number just
    given to it, once to every connected client whose socket is open,
    and to no one else; the handler sends nothing besides. *)
Theorem X5_output_reaches_each_open_client_once (is_open : conn → bool)
    (chunk : jsstring) (st : State) :
  NoDup (onPTYData_handler is_open chunk st).2 ∧
  ∀ e, e ∈ (onPTYData_handler is_open chunk st).2 ↔
       ∃ ws, e = Send ws (Output (nextSeq st) chunk) ∧
             is_Some (clients st !! ws) ∧ is_open ws = true.
Proof.
  split; [|apply output_frames].
  unfold onPTYData_handler.
  destruct (retain_total (nextSeq st) chunk
              (outputBuffer st ++ [{| seq := nextSeq st; data := chunk |}]))
    as [b ->].
  simpl. apply NoDup_fmap_2_strong.
  - intros [w1 c1] [w2 c2].
    rewrite !list_elem_of_filter, !elem_of_map_to_list. simpl.
    intros [_ H1] [_ H2] [= ->]. congruence.
  - apply NoDup_filter, NoDup_map_to_list.
Qed.

Lemma record_chunk_prefix es : ∀ h,
  forallb (fun e => negb (is_stop e)) es = true →
  h `prefix_of` foldl record_chunk h es.
Proof.
  induction es as [|e es IH]; intros h Hes; [done|].
  simpl in Hes. apply andb_prop in Hes as [He Hes]. simpl.
  etrans; [|by apply IH].
  destruct e; simpl; try done. by apply prefix_app_r.
Qed.

Lemma sync_reply_not_output b n sq c : sync_reply b n ≠ Some (Output sq c).
Proof. unfold sync_reply. by repeat case_match. Qed.

(** Only the PTY-data handler sends output frames. *)
Lemma output_frame_step e s ws sq c :
  Send ws (Output sq c) ∈ (step e s).2 →
  sq = nextSeq s.1 ∧ ∃ is_open, e = EvPtyData is_open c.
Proof.
  assert (Hnone : ∀ fx : list Effect,
            (∀ x, x ∈ fx → x ≠ Send ws (Output sq c)) →
            Send ws (Output sq c) ∈ fx →
            sq = nextSeq s.1 ∧ ∃ is_open, e = EvPtyData is_open c).
  { intros fx Hfx Hin. by destruct (Hfx _ Hin). }
  destruct s as [st pty]. simpl in *.
  destruct e; simpl.
  - apply Hnone. unfold on_connection. case_decide; simpl.
    + by intros x [->|[]%elem_of_nil]%elem_of_cons.
    + by intros x ?%elem_of_nil.
  - apply Hnone. unfold on_message.
    destruct (closures st !! ws0); [|by intros x ?%elem_of_nil].
    destruct (rate_check now c0) as [c' [|]]; [|by intros x ?%elem_of_nil].
    unfold dispatch.
    destruct msg as [ls|[text|]|[cs|] [rs|]|[|]| |]; simpl;
      try (by intros x ?%elem_of_nil);
      try (by intros x [->|[]%elem_of_nil]%elem_of_cons).
    + destruct (synced (clientInfo c')); simpl; [by intros x ?%elem_of_nil|].
      destruct (sync_reply (outputBuffer st) (default 0 ls)) as [m|] eqn:Hm;
        [|by intros x ?%elem_of_nil].
      intros x [->|[]%elem_of_nil]%elem_of_cons [= -> ->].
      by apply sync_reply_not_output in Hm.
    + destruct (_ && _); simpl; by intros x ?%elem_of_nil.
  - apply Hnone. by intros x ?%elem_of_nil.
  - apply Hnone. by intros x ?%elem_of_nil.
  - pose proof (output_frames is_open chunk st (Send ws (Output sq c))) as Hfx.
    destruct (onPTYData_handler is_open chunk st) as [st' fx]. simpl in *.
    intros (w & [= -> -> ->] & _)%Hfx. eauto.
  - apply Hnone. unfold onPTYExit_handler. intros x.
    rewrite list_elem_of_fmap. by intros (? & -> & _).
  - apply Hnone. by intros x ?%elem_of_nil.
  - apply Hnone. intros x. rewrite list_elem_of_fmap. by intros (? & -> & _).
Qed.

Lemma output_frame_run es : ∀ s h ws sq c,
  forallb (fun e => negb (is_stop e)) es = true →
  log_inv s.1 → hist_inv h s.1 →
  Send ws (Output sq c) ∈ (run es s).2 →
  1 ≤ sq ∧ foldl record_chunk h es !! Z.to_nat (sq - 1) = Some c.
Proof.
  induction es as [|e es IH]; intros s h ws sq c Hes Hlog Hh; simpl.
  { by intros ?%elem_of_nil. }
  simpl in Hes. apply andb_prop in Hes as [He Hes].
  pose proof (hist_inv_step e s h Hlog Hh) as H1.
  pose proof (log_inv_step e s Hlog) as L1.
  pose proof (output_frame_step e s ws sq c) as Hstep.
  destruct (step e s) as [s1 fx1]. simpl in *.
  specialize (IH s1 (record_chunk h e) ws sq c Hes L1 H1).
  destruct (run es s1) as [s2 fx2]. simpl in *.
  intros [Hin|Hin]%elem_of_app; [|by apply IH].
  destruct (Hstep Hin) as [-> [is_open ->]].
  destruct Hlog as [_ Hone], Hh as [Hcount _].
  split; [lia|].
  eapply prefix_lookup_Some; [|by apply record_chunk_prefix].
  simpl. replace (Z.to_nat (nextSeq s.1 - 1)) with (length h) by lia.
  by rewrite list_lookup_middle.
Qed.

(** X6: while the relay is not stopped, an output frame numbered [sq]
    carries the [sq]-th chunk the PTY has emitted, whoever receives it:
    all clients see the same numbering of the same stream. *)
Theorem X6_output_frames_numbered_as_emitted (es : list Event)
    (pty : Pty.State) (i : nat) (ws : conn) (sq : Z) (c : jsstring) :
  forallb (fun e => negb (is_stop e)) es = true →
  (run es (initial, pty)).2 !! i = Some (Send ws (Output sq c)) →
  1 ≤ sq ∧ emitted es !! Z.to_nat (sq - 1) = Some c.
Proof.
  intros Hes Hi.
  apply (output_frame_run es (initial, pty) [] ws sq c Hes).
  - apply log_inv_initial.
  - by split.
  - by eapply list_elem_of_lookup_2.
Qed.

(** The hypotheses of X6 hold of the second frame sent to the client
    of [three_chunks]. *)
Lemma X6_witness :
  1 ≤ 2 ∧ emitted three_chunks !! Z.to_nat (2 - 1) = Some (str "b").
Proof.
  apply (X6_output_frames_numbered_as_emitted three_chunks Pty.initial
           1%nat 1%nat 2 (str "b")); reflexivity.
Defined.

End Broadcast.

(** ** Connections and frames *)

Section Connections.
Import WebServer.

Lemma dom_clients st :
  dom (clients st) = connectedClients st ∩ dom (closures st).
Proof.
  apply set_eq. intros w. unfold clients.
  rewrite elem_of_intersection, !elem_of_dom. split.
  - intros [ci [Hci Hw]%map_lookup_filter_Some].
    rewrite lookup_fmap in Hci. split; [done|].
    destruct (closures st !! w); [done|discriminate].
  - intros [Hw [c Hc]]. exists (clientInfo c).
    apply map_lookup_filter_Some. split; [|done].
    by rewrite lookup_fmap, Hc.
Qed.

Lemma size_clients_mono st st' :
  connectedClients st' ∩ dom (closures st') ⊆
    connectedClients st ∩ dom (closures st) →
  (size (clients st') ≤ size (clients st))%nat.
Proof.
  intros Hsub. rewrite <- !size_dom, !dom_clients. by apply subseteq_size.
Qed.

Lemma connection_ceiling_step e s :
  (size (clients s.1) ≤ MAX_CONNECTIONS)%nat →
  (size (clients (step e s).1.1) ≤ MAX_CONNECTIONS)%nat.
Proof.
  destruct s as [st pty]. simpl. intros Hb.
  assert (Hput : ∀ ws c0 c1, closures st !! ws = Some c0 →
    (size (clients (set_clients (connectedClients st)
                                (<[ws:=c1]> (closures st))
                                (clientIdCounter st) st))
     ≤ size (clients st))%nat).
  { intros ws c0 c1 Hc0. apply size_clients_mono. simpl.
    rewrite dom_insert_L.
    assert (ws ∈ dom (closures st)) by (apply elem_of_dom; eauto).
    intros x [Hx [->%elem_of_singleton|Hd]%elem_of_union]%elem_of_intersection;
      by apply elem_of_intersection. }
  destruct e; simpl; try done.
  - unfold on_connection. case_decide as Hfull; simpl; [done|].
    rewrite <- size_dom, dom_clients. simpl. rewrite dom_insert_L.
    etrans; [apply (subseteq_size _ ({[ws]} ∪ dom (clients st)))|].
    { rewrite dom_clients.
      intros x [[?|?]%elem_of_union [?|?]%elem_of_union]%elem_of_intersection;
        apply elem_of_union;
        first [by left | right; by apply elem_of_intersection]. }
    rewrite size_union_alt, size_singleton.
    assert (size (dom (clients st) ∖ {[ws]}) ≤ size (dom (clients st)))%nat
      by (apply subseteq_size; by intros x [? _]%elem_of_difference).
    rewrite size_dom in *. lia.
  - unfold on_message. destruct (closures st !! ws) as [c0|] eqn:Hc0; [|done].
    destruct (rate_check now c0) as [c' [|]];
      [|etrans; [by eapply Hput|done]].
    unfold dispatch.
    repeat case_match; simpl; (etrans; [by eapply Hput|done]).
  - unfold on_ws_error. case_match; [|done].
    etrans; [apply size_clients_mono|done]. simpl.
    intros x [[? _]%elem_of_difference ?]%elem_of_intersection.
    by apply elem_of_intersection.
  - unfold on_ws_close. case_match; [|done]. simpl.
    etrans; [apply size_clients_mono|done]. simpl.
    intros x [[? _]%elem_of_difference ?]%elem_of_intersection.
    by apply elem_of_intersection.
  - unfold onPTYData_handler. by destruct (retain _ _ _).
  - etrans; [|apply Nat.le_0_l]. apply Nat.eq_le_incl.
    rewrite <- size_dom, dom_clients. simpl.
    rewrite intersection_empty_l_L. apply size_empty.
Qed.

(** X2: in every state the relay reaches, at most [MAX_CONNECTIONS]
    clients are connected. *)
Theorem X2_connections_never_exceed_ceiling (es : list Event)
    (pty : Pty.State) :
  (size (clients (after es pty)) ≤ MAX_CONNECTIONS)%nat.
Proof.
  apply (run_invariant (fun st => (size (clients st) ≤ MAX_CONNECTIONS)%nat)).
  - apply connection_ceiling_step.
  - simpl. unfold clients. simpl. rewrite fmap_empty, map_filter_empty.
    rewrite map_size_empty. lia.
Qed.

(** The ceiling at work: of twelve sockets the first ten are accepted,
    and the last two are closed with code 1013. *)
Example eleventh_connection_refused :
  size (clients (after twelve_connections Pty.initial)) = 10%nat ∧
  (run twelve_connections (initial, Pty.initial)).2
    = [WsClose 10%nat (Some 1013); WsClose 11%nat (Some 1013)].
Proof. vm_compute. done. Qed.

Lemma client_sizes_put st ws c0 c1 :
  closures st !! ws = Some c0 →
  cols (clientInfo c1) = cols (clientInfo c0) →
  rows (clientInfo c1) = rows (clientInfo c0) →
  client_sizes (set_clients (connectedClients st) (<[ws:=c1]> (closures st))
                            (clientIdCounter st) st)
  = client_sizes st.
Proof.
  intros Hc0 Hc Hr. apply map_eq. intros w.
  unfold client_sizes, clients. simpl.
  rewrite !lookup_fmap, !map_lookup_filter, !lookup_fmap.
  destruct (decide (w = ws)) as [->|Hne].
  - rewrite lookup_insert_eq, Hc0. simpl.
    case_guard; simpl; [|done]. by rewrite Hc, Hr.
  - by rewrite lookup_insert_ne.
Qed.

Lemma resize_calls_write text pty :
  Pty.resize_calls (Pty.calls (Pty.writeToPTY text pty))
  = Pty.resize_calls (Pty.calls pty).
Proof.
  unfold Pty.writeToPTY. destruct (Pty.ptyProcess pty); [|done].
  simpl. unfold Pty.resize_calls. rewrite omap_app. simpl.
  by rewrite app_nil_r.
Qed.

(** X7: a frame that is not a [resize] in range (a [resize] with a
    column or row count that is no integer, not positive, or above 500
    or 200; any other frame) issues no resize to the PTY and leaves the
    size recorded for every client as it was. *)
Theorem X7_only_resize_in_range_resizes (now : Z) (ws : conn) (msg : ClientMsg)
    (st : State) (pty : Pty.State) :
  (∀ c r, msg = MsgResize c r → ¬ in_range c r) →
  Pty.resize_calls (Pty.calls (on_message now ws msg st pty).1.2)
    = Pty.resize_calls (Pty.calls pty) ∧
  client_sizes (on_message now ws msg st pty).1.1 = client_sizes st.
Proof.
  intros Hmsg. unfold on_message.
  destruct (closures st !! ws) as [c0|] eqn:Hc0; [|done].
  destruct (rate_check now c0) as [c' pass] eqn:E.
  assert (Hi : clientInfo c' = clientInfo c0).
  { change c' with (c', pass).1. rewrite <- E. apply rate_check_info. }
  assert (Hsame : client_sizes
            (set_clients (connectedClients st) (<[ws:=c']> (closures st))
                         (clientIdCounter st) st) = client_sizes st).
  { apply (client_sizes_put _ _ c0); by rewrite ?Hi. }
  destruct pass; [|done].
  unfold dispatch.
  destruct msg as [ls|[text|]|[cs|] [rs|]|[|]| |]; simpl; try done.
  - destruct (synced (clientInfo c')); simpl; [done|].
    split; [done|]. apply (client_sizes_put _ _ c0); simpl; by rewrite ?Hi.
  - split; [apply resize_calls_write|done].
  - destruct (Z.ltb_spec 0 cs); [|done].
    destruct (Z.leb_spec cs 500); [|done].
    destruct (Z.ltb_spec 0 rs); [|done].
    destruct (Z.leb_spec rs 200); [|done].
    destruct (Hmsg _ _ eq_refl). exists cs, rs. repeat split; lia.
Qed.

(** The hypothesis of X7 holds of a [resize] to 501 columns. *)
Lemma X7_witness :
  Pty.resize_calls
    (Pty.calls (on_message 5 1%nat (MsgResize (Some 501) (Some 24))
                           (after two_clients Pty.initial) local_100x40).1.2)
    = Pty.resize_calls (Pty.calls local_100x40) ∧
  client_sizes (on_message 5 1%nat (MsgResize (Some 501) (Some 24))
                           (after two_clients Pty.initial) local_100x40).1.1
    = client_sizes (after two_clients Pty.initial).
Proof.
  apply (X7_only_resize_in_range_resizes 5 1%nat
           (MsgResize (Some 501) (Some 24))
           (after two_clients Pty.initial) local_100x40).
  intros c r [= <- <-] (cs & rs & [= <-] & _ & Hcs & _). lia.
Defined.

End Connections.

(** ** Credentials *)

Section Credentials.
Import WebServer.

Lemma utf8_encode_ascii u : (u < 128)%N → utf8_encode u = [u].
Proof. intros H. unfold utf8_encode. by destruct (N.ltb_spec u 128); [|lia]. Qed.

Lemma utf8_encode_head cp :
  (128 ≤ cp)%N → ∃ x rest, utf8_encode cp = x :: rest ∧ (128 ≤ x)%N.
Proof.
  intros H. unfold utf8_encode.
  destruct (N.ltb_spec cp 128); [lia|].
  destruct (N.ltb_spec cp 2048);
    [|destruct (N.ltb_spec cp 65536)];
    eexists _, _; (split; [done|]);
    (etrans; [|apply N.le_add_r]); lia.
Qed.

Lemma no_surrogate_ascii u :
  (u < 128)%N → is_high_surrogate u = false ∧ is_low_surrogate u = false.
Proof.
  intros H. unfold is_high_surrogate, is_low_surrogate.
  destruct (N.leb_spec 55296 u); [lia|].
  destruct (N.leb_spec 56320 u); [lia|]. done.
Qed.

Lemma utf8_chars_ascii s :
  ascii_text s → utf8_chars s = (fun u => [u]) <$> s.
Proof.
  induction 1 as [|u s Hu Hs IH]; [done|]. cbn [utf8_chars].
  destruct (no_surrogate_ascii u) as [-> ->]; [lia|].
  rewrite utf8_encode_ascii by lia. by rewrite IH.
Qed.

Lemma utf8_fit_units (s : jsstring) : ∀ room,
  (length s ≤ room)%nat → utf8_fit room ((fun u => [u]) <$> s) = s.
Proof.
  induction s as [|u s IH]; intros room Hr; [done|].
  destruct room as [|room]; [simpl in Hr; lia|].
  simpl. rewrite Nat.sub_0_r. f_equal. apply IH. simpl in Hr. lia.
Qed.

(** An ASCII string of the buffer's length fills the buffer with itself. *)
Lemma Buffer_write_ascii s :
  ascii_text s → Buffer_write (Buffer_alloc (length s)) s = s.
Proof.
  intros Hs. unfold Buffer_write, Buffer_alloc.
  rewrite length_replicate, utf8_chars_ascii, utf8_fit_units by done.
  rewrite drop_ge; [by rewrite app_nil_r|]. by rewrite length_replicate.
Qed.

(** What [buf.write] stores is, as long as it is ASCII, the beginning of
    the string itself. *)
Lemma utf8_fit_ascii_prefix (a : jsstring) : ∀ room,
  Forall (fun x => x < 128)%N (utf8_fit room (utf8_chars a)) →
  utf8_fit room (utf8_chars a) `prefix_of` a.
Proof.
  assert (Hbig : ∀ cp room cs,
    (128 ≤ cp)%N →
    Forall (fun x => x < 128)%N (utf8_fit room (utf8_encode cp :: cs)) →
    utf8_fit room (utf8_encode cp :: cs) = []).
  { intros cp room cs Hcp. cbn [utf8_fit].
    destruct (length (utf8_encode cp) <=? room)%nat; [|done].
    destruct (utf8_encode_head cp Hcp) as (x & rest & -> & Hx).
    intros Hall. apply Forall_inv in Hall. lia. }
  assert (Hrepl : (128 ≤ 65533)%N) by lia.
  induction a as [|u a IH]; intros room; [done|]. cbn [utf8_chars].
  destruct (is_high_surrogate u) eqn:Hh.
  { destruct a as [|l a]; [|destruct (is_low_surrogate l)]; intros Hall.
    - rewrite (Hbig _ _ _ Hrepl Hall). apply prefix_nil.
    - assert (Hp : (128 ≤ 65536 + (u - 55296) * 1024 + (l - 56320))%N) by lia.
      rewrite (Hbig _ _ _ Hp Hall). apply prefix_nil.
    - rewrite (Hbig _ _ _ Hrepl Hall). apply prefix_nil. }
  destruct (is_low_surrogate u) eqn:Hl.
  { intros Hall. rewrite (Hbig _ _ _ Hrepl Hall). apply prefix_nil. }
  destruct (N.ltb_spec u 128) as [Hu|Hu].
  - rewrite utf8_encode_ascii by done. cbn [utf8_fit length].
    destruct (1 <=? room)%nat; [|intros _; apply prefix_nil].
    simpl. intros Hall. apply Forall_inv_tail in Hall.
    apply prefix_cons. by apply IH.
  - intros Hall. rewrite (Hbig _ _ _ Hu Hall). apply prefix_nil.
Qed.

Lemma safeEqual_refl a : safeEqual a a = Some true.
Proof.
  unfold safeEqual, timingSafeEqual. case_decide; [|done].
  by rewrite !bool_decide_eq_true_2.
Qed.

Lemma safeEqual_ascii_true a b :
  ascii_text b → safeEqual a b = Some true → a = b.
Proof.
  intros Hb. unfold safeEqual, timingSafeEqual.
  case_decide as Hlen; [|done]. intros [= Hm].
  apply andb_prop in Hm as [Hbuf%bool_decide_eq_true Hab%bool_decide_eq_true].
  destruct b as [|u b].
  { by destruct a. }
  replace (length a `max` (length (u :: b) `max` 1))%nat
    with (length (u :: b)) in Hbuf by (simpl in *; lia).
  rewrite (Buffer_write_ascii (u :: b) Hb) in Hbuf.
  unfold Buffer_write, Buffer_alloc in Hbuf.
  rewrite length_replicate, drop_replicate in Hbuf.
  pose proof (length_utf8_fit (utf8_chars a) (length (u :: b))) as Hw.
  remember (utf8_fit (length (u :: b)) (utf8_chars a)) as w eqn:Ew.
  assert (Hfull : length w = length (u :: b)).
  { destruct (decide (length w = length (u :: b))) as [|Hne]; [done|].
    exfalso.
    assert (Hz : (u :: b) !! length w = Some 0%N).
    { rewrite <- Hbuf. rewrite lookup_app_r; [|done].
      apply lookup_replicate_2. unfold byte, code_unit in *. lia. }
    apply (Forall_lookup_1 _ _ _ _ Hb) in Hz. lia. }
  rewrite Hfull, Nat.sub_diag in Hbuf. simpl in Hbuf.
  rewrite app_nil_r in Hbuf.
  assert (Hpre : w `prefix_of` a).
  { rewrite Ew. apply utf8_fit_ascii_prefix. rewrite <- Ew, Hbuf.
    eapply Forall_impl; [exact Hb|]. simpl. lia. }
  rewrite <- Hbuf. symmetry. apply prefix_length_eq; [done|].
  unfold byte, code_unit in *. lia.
Qed.

(** X8: against an ASCII token without NUL, [safeEqual] is exact: it
    answers true for the token itself and false for every other string,
    whatever its length or its characters. *)
Theorem X8_safeEqual_exact_on_ascii (a b : jsstring) :
  ascii_text b → (safeEqual a b = Some true ↔ a = b).
Proof.
  intros Hb. split; [by apply safeEqual_ascii_true|].
  intros ->. apply safeEqual_refl.
Qed.

(** The hypothesis of X8 holds of a hexadecimal token. *)
Lemma X8_witness :
  safeEqual (str "0123456789abcdeX") (str "0123456789abcdef") = Some true ↔
  str "0123456789abcdeX" = str "0123456789abcdef".
Proof.
  apply (X8_safeEqual_exact_on_ascii (str "0123456789abcdeX")
                                     (str "0123456789abcdef")).
  unfold ascii_text. vm_compute. repeat constructor.
Defined.




(** The three outcomes, and the relay after its stop. *)
Example requireAuth_outcomes :
  requireAuth (Some (str "0123456789abcdef")) None relay_with_token
    = Some SetCookieAndRedirect ∧
  requireAuth None (Some (str "0123456789abcdef")) relay_with_token
    = Some Next ∧
  requireAuth (Some (str "0123")) (Some (str "f")) relay_with_token
    = Some Forbidden ∧
  requireAuth (Some []) (Some [])
              (stopWebServer relay_with_token Pty.initial).1.1
    = Some Forbidden.
Proof. vm_compute. done. Qed.

End Credentials.

(** ** The PTY supervisor as a transition system *)

Section PtyRuns.
Import Pty.

Lemma pty_run_snoc ops op : pty_run (ops ++ [op]) = pty_apply (pty_run ops) op.
Proof. unfold pty_run. by rewrite foldl_app. Qed.

Lemma num_or_nonzero a b : b ≠ 0 → num_or a b ≠ 0.
Proof.
  intros Hb. unfold num_or. destruct a as [v|]; [|done].
  by destruct (Z.eqb_spec v 0).
Qed.

Lemma str_or_nonempty a b : b ≠ [] → str_or a b ≠ [].
Proof. intros Hb. unfold str_or. by destruct a as [[|c s]|]. Qed.

(** X10: whatever is asked of the supervisor, the local size it reports
    never has a zero dimension, and every PTY is spawned with a command
    that is not empty and with columns and rows that are not zero: each
    absent, zero or empty option falls back to the process's value and
    then to a default (the shell or /bin/sh, 80 columns, 24 rows). *)
Theorem X10_local_size_and_command_never_degenerate (ops : list PtyOp) :
  localCols (pty_run ops) ≠ 0 ∧
  localRows (pty_run ops) ≠ 0 ∧
  ∀ h, CallSpawn h ∈ calls (pty_run ops) →
       pty_command h ≠ [] ∧ pty_cols h ≠ 0 ∧ pty_rows h ≠ 0.
Proof.
  induction ops as [|op ops IH] using rev_ind.
  { split_and!; try done. by intros h ?%elem_of_nil. }
  rewrite pty_run_snoc. destruct IH as (Hc & Hr & Hs).
  set (st := pty_run ops) in *.
  destruct op; simpl; try done.
  - unfold spawnPTY. destruct (spawn_raises proc); simpl.
    + split_and!; try done; by repeat apply num_or_nonzero.
    + split_and!; try (by repeat apply num_or_nonzero).
      intros h [Hin|[= ->]%list_elem_of_singleton]%elem_of_app;
        [by apply Hs|]. simpl.
      split_and!; try (by repeat apply num_or_nonzero).
      by repeat apply str_or_nonempty.
  - unfold writeToPTY. destruct (ptyProcess st); [|done]. simpl.
    split_and!; try done.
    intros h [Hin|[=]%list_elem_of_singleton]%elem_of_app. by apply Hs.
  - unfold resizePTY. destruct (ptyProcess st); [|done]. simpl.
    split_and!; try done.
    intros h [Hin|[=]%list_elem_of_singleton]%elem_of_app. by apply Hs.
  - unfold killPTY. destruct (ptyProcess st); simpl; [|done].
    split_and!; try done.
    intros h [Hin|[=]%list_elem_of_singleton]%elem_of_app. by apply Hs.
  - unfold on_stdout_resize.
    destruct (resizeListener st); simpl; [|done].
    destruct (Z.eqb_spec (num_or columns 0) 0); simpl; [done|].
    by destruct (Z.eqb_spec (num_or rows 0) 0).
Qed.

(** One more call keeps the trace in order when it names a handle that
    is known and not killed. *)
Lemma trace_inv_call st c h' st' :
  trace_inv st →
  calls st' = calls st ++ [c] →
  (call_pid c ≤ length (calls st))%nat →
  CallKill (call_pid c) ∉ calls st →
  (∀ h, ptyProcess st' = Some h → pid h = call_pid c ∧ c ≠ CallKill (pid h)) →
  ptyProcess st' = h' →
  trace_inv st'.
Proof.
  intros [Hk Hh Hd] Hcalls Hpid Hlive Hheld _. split; rewrite Hcalls.
  - intros x [Hx|Hx%list_elem_of_singleton]%elem_of_app;
      rewrite length_app; simpl; [|subst x; lia].
    specialize (Hk x Hx). lia.
  - intros h Hst. destruct (Hheld h Hst) as [-> Hne].
    rewrite length_app. simpl. split; [lia|].
    intros [?|Hx%list_elem_of_singleton]%elem_of_app; [done|].
    by apply Hne.
  - intros i j p x Hij Hi Hj.
    apply lookup_app_Some in Hi as [Hi|[Hlen Hi]].
    2:{ apply lookup_lt_Some in Hj. rewrite length_app in Hj. simpl in Hj.
        apply list_lookup_singleton_Some in Hi as [? _]. lia. }
    apply lookup_app_Some in Hj as [Hj|[_ Hj]]; [by eapply Hd|].
    apply list_lookup_singleton_Some in Hj as [_ <-].
    intros <-. apply Hlive. by eapply list_elem_of_lookup_2.
Qed.

Lemma trace_inv_same st st' :
  trace_inv st →
  calls st' = calls st →
  (ptyProcess st' = ptyProcess st ∨ ptyProcess st' = None) →
  trace_inv st'.
Proof.
  intros [Hk Hh Hd] Hcalls Hp. split; rewrite Hcalls; try done.
  intros h Hst. destruct Hp as [Hp|Hp]; rewrite Hp in Hst; [|done].
  by apply Hh.
Qed.

Lemma trace_inv_apply st op : trace_inv st → trace_inv (pty_apply st op).
Proof.
  intros Hinv. pose proof Hinv as [Hk Hh Hd].
  destruct op; simpl;
    try (by apply (trace_inv_same st); auto).
  - unfold spawnPTY. destruct (spawn_raises proc).
    + by apply (trace_inv_same st); auto.
    + eapply (trace_inv_call st); [done|done|simpl; lia| |simpl|done].
      * simpl. intros Hin. apply Hk in Hin. simpl in Hin. lia.
      * by intros h [= <-].
  - unfold writeToPTY. destruct (ptyProcess st) as [h|] eqn:Hp; [|done].
    destruct (Hh h eq_refl) as [Hlt Hnk].
    eapply (trace_inv_call st); [done|done|simpl; lia|done| |done].
    simpl. by intros h' [= <-].
  - unfold resizePTY. destruct (ptyProcess st) as [h|] eqn:Hp; [|done].
    destruct (Hh h eq_refl) as [Hlt Hnk].
    eapply (trace_inv_call st); [done|done|simpl; lia|done| |done].
    simpl. by intros h' [= <-].
  - unfold killPTY. destruct (ptyProcess st) as [h|] eqn:Hp.
    + destruct (Hh h eq_refl) as [Hlt Hnk].
      eapply (trace_inv_call st); [done|done|simpl; lia|done| |done].
      simpl. by intros h'.
    + apply (trace_inv_same st); auto.
  - unfold on_stdout_resize. case_match; by apply (trace_inv_same st); auto.
Qed.

Lemma trace_inv_run ops : trace_inv (pty_run ops).
Proof.
  induction ops as [|op ops IH] using rev_ind.
  - split; simpl; try done; by intros ? ?%elem_of_nil.
  - rewrite pty_run_snoc. by apply trace_inv_apply.
Qed.

(** X11: whatever is asked of the supervisor, once a kill has been
    issued for a handle, no later call (write, resize, kill or spawn)
    names that handle. *)
Theorem X11_no_call_after_kill (ops : list PtyOp) (i j p : nat) (c : Call) :
  (i < j)%nat →
  calls (pty_run ops) !! i = Some (CallKill p) →
  calls (pty_run ops) !! j = Some c →
  call_pid c ≠ p.
Proof. intros Hij Hi Hj. by eapply (trace_killed _ (trace_inv_run ops)). Qed.

(** The hypotheses of X11 hold of the kill of PTY 0 and the write that
    follows a second spawn. *)
Lemma X11_witness : call_pid (CallWrite 2%nat (str "q")) ≠ 0%nat.
Proof.
  apply (X11_no_call_after_kill respawn_and_write 1%nat 3%nat 0%nat
           (CallWrite 2%nat (str "q"))); [lia|reflexivity|reflexivity].
Defined.

End PtyRuns.

(** ** The tunnel's promise and signals *)

Section TunnelRuns.
Import Tunnel.

Lemma run_app es1 es2 st :
  run (es1 ++ es2) st =
  ((run es2 (run es1 st).1).1, (run es1 st).2 ++ (run es2 (run es1 st).1).2).
Proof.
  revert st. induction es1 as [|e es1 IH]; intros st; simpl.
  - by destruct (run es2 st).
  - destruct (step e st) as [s1 f1]. rewrite IH.
    destruct (run es1 s1). simpl. by rewrite app_assoc.
Qed.

Lemma tunnel_wf_initial : tunnel_wf initial.
Proof. split; simpl; [|done]. by intros p [c ?%lookup_empty_Some]. Qed.

Lemma wf_insert_known st p c :
  tunnel_wf st → is_Some (handlers st !! p) →
  ∀ q, is_Some (<[p:=c]> (handlers st) !! q) →
       (q < size (<[p:=c]> (handlers st)))%nat.
Proof.
  intros [Hs _] [c0 Hp] q Hq.
  rewrite map_size_insert_Some by eauto. apply Hs.
  destruct (decide (p = q)) as [->|Hne]; [eauto|].
  by rewrite lookup_insert_ne in Hq.
Qed.

Lemma tunnel_wf_step e st : tunnel_wf st → tunnel_wf (step e st).1.
Proof.
  intros Hwf. pose proof Hwf as [Hs Hc].
  assert (Hkeep : ∀ p c t u k i,
            is_Some (handlers st !! p) →
            (t = tunnelProcess st ∨ t = None) →
            tunnel_wf {| tunnelProcess := t; tunnelUrl := u;
                         crashCallbacks := k; intentionalStop := i;
                         handlers := <[p:=c]> (handlers st) |}).
  { intros p c t u k i Hp Ht. split; simpl.
    - by apply wf_insert_known.
    - intros q Hq. destruct Ht as [->| ->]; [|done].
      apply Hc in Hq. destruct (decide (p = q)) as [->|Hne].
      + rewrite lookup_insert_eq. eauto.
      + by rewrite lookup_insert_ne. }
  destruct e; simpl.
  - split; simpl.
    + intros p [c Hp].
      assert (Hfresh : handlers st !! size (handlers st) = None).
      { destruct (handlers st !! size (handlers st)) eqn:E; [|done].
        assert (size (handlers st) < size (handlers st))%nat; [|lia].
        apply Hs. eauto. }
      rewrite map_size_insert_None by done.
      apply lookup_insert_Some in Hp as [[<- _]|[_ Hp]]; [lia|].
      assert (p < size (handlers st))%nat by (apply Hs; eauto). lia.
    + intros p [= <-]. rewrite lookup_insert_eq. eauto.
  - unfold on_output.
    destruct (handlers st !! p) as [c|] eqn:Hp; [|done].
    destruct urlMatch as [url|]; [|done].
    destruct (urlFound c); [done|]. simpl. apply Hkeep; eauto.
  - unfold on_timeout.
    destruct (handlers st !! p) as [c|] eqn:Hp; [|done].
    destruct (timerPending c); [|done].
    destruct (urlFound c); simpl.
    + apply Hkeep; eauto.
    + unfold stopTunnel, set_closure. simpl.
      destruct (tunnelProcess st); simpl; apply Hkeep; eauto.
  - unfold on_error.
    destruct (handlers st !! p) as [c|] eqn:Hp; [|done].
    simpl. apply Hkeep; eauto.
  - unfold on_close.
    destruct (handlers st !! p) as [c|] eqn:Hp; [|done].
    simpl. apply Hkeep; eauto.
  - unfold stopTunnel. destruct (tunnelProcess st); simpl; by split.
  - by split.
Qed.

Lemma tunnel_wf_run es : ∀ st, tunnel_wf st → tunnel_wf (run es st).1.
Proof.
  induction es as [|e es IH]; intros st Hwf; [done|]. simpl.
  pose proof (tunnel_wf_step e st Hwf) as H1.
  destruct (step e st) as [s1 f1]. specialize (IH s1 H1).
  by destruct (run es s1).
Qed.

Lemma fresh_handler st :
  tunnel_wf st → handlers st !! size (handlers st) = None.
Proof.
  intros [Hs _]. destruct (handlers st !! size (handlers st)) eqn:E; [|done].
  assert (size (handlers st) < size (handlers st))%nat; [|lia].
  apply Hs. eauto.
Qed.

Lemma resolve_budget_step p e st :
  tunnel_wf st →
  (length (resolutions p (step e st).2) + resolve_budget p (step e st).1
   ≤ resolve_budget p st)%nat.
Proof.
  intros Hwf. unfold resolve_budget.
  destruct e as [|q m|q|q|q code| |cb]; simpl.
  - destruct (decide (size (handlers st) = p)) as [<-|Hne].
    + by rewrite lookup_insert_eq, fresh_handler.
    + by rewrite lookup_insert_ne.
  - unfold on_output.
    destruct (handlers st !! q) as [c|] eqn:Hq; [|simpl; lia].
    destruct m as [url|]; [|simpl; lia].
    destruct (urlFound c) eqn:Hu; [simpl; lia|]. simpl.
    destruct (decide (q = p)) as [->|Hne].
    + rewrite lookup_insert_eq, Hq, Hu. simpl. lia.
    + rewrite lookup_insert_ne by done. simpl. lia.
  - unfold on_timeout.
    destruct (handlers st !! q) as [c|] eqn:Hq; [|simpl; lia].
    destruct (timerPending c); [|simpl; lia].
    assert (Hsame : match <[q:={| urlFound := urlFound c;
                                  timerPending := false |}]> (handlers st) !! p
                    with
                    | Some c0 => if urlFound c0 then 0%nat else 1%nat
                    | None => 1%nat
                    end
                  = match handlers st !! p with
                    | Some c0 => if urlFound c0 then 0%nat else 1%nat
                    | None => 1%nat
                    end).
    { destruct (decide (q = p)) as [->|Hne].
      - by rewrite lookup_insert_eq, Hq.
      - by rewrite lookup_insert_ne. }
    destruct (urlFound c) eqn:Hu; simpl; [rewrite Hsame; lia|].
    unfold stopTunnel, set_closure. simpl.
    destruct (tunnelProcess st); simpl; rewrite Hsame; lia.
  - unfold on_error.
    destruct (handlers st !! q) as [c|] eqn:Hq; [|simpl; lia]. simpl.
    destruct (decide (q = p)) as [->|Hne].
    + rewrite lookup_insert_eq, Hq. simpl. lia.
    + rewrite lookup_insert_ne by done. lia.
  - unfold on_close.
    destruct (handlers st !! q) as [c|] eqn:Hq; [|simpl; lia]. simpl.
    assert (resolutions p
              (if negb (urlFound c) then [Reject q (ExitedWithCode code)]
               else if negb (intentionalStop st)
                    then (fun cb => Crash cb code) <$> crashCallbacks st
                    else []) = []) as ->.
    { destruct (urlFound c), (intentionalStop st); simpl; try done.
      induction (crashCallbacks st) as [|cb l IHl]; [done|]. exact IHl. }
    destruct (decide (q = p)) as [->|Hne].
    + rewrite lookup_insert_eq, Hq. simpl. lia.
    + rewrite lookup_insert_ne by done. simpl. lia.
  - unfold stopTunnel. destruct (tunnelProcess st); simpl; lia.
  - lia.
Qed.

Lemma resolve_budget_run p es : ∀ st,
  tunnel_wf st →
  (length (resolutions p (run es st).2) ≤ resolve_budget p st)%nat.
Proof.
  induction es as [|e es IH]; intros st Hwf; simpl; [lia|].
  pose proof (resolve_budget_step p e st Hwf) as Hstep.
  pose proof (tunnel_wf_step e st Hwf) as H1.
  destruct (step e st) as [s1 f1]. specialize (IH s1 H1).
  destruct (run es s1) as [s2 f2]. simpl in *.
  unfold resolutions in *. rewrite omap_app, length_app. lia.
Qed.

(** X12: over any sequence of events, the start promise of a tunnel
    process is resolved at most once: the first URL found wins and later
    matches, on either stream, are ignored. *)
Theorem X12_promise_resolved_at_most_once (es : list Event) (p : proc) :
  (length (resolutions p (run es initial).2) ≤ 1)%nat.
Proof.
  etrans; [apply resolve_budget_run, tunnel_wf_initial|]. done.
Qed.

(** The URL printed twice resolves once, with the first. *)
Example url_twice_resolves_once :
  resolutions 0%nat (run url_twice initial).2
    = [str "https://a-b.trycloudflare.com"] ∧
  tunnelUrl (run url_twice initial).1
    = Some (str "https://a-b.trycloudflare.com").
Proof. vm_compute. done. Qed.

Lemma kill_budget_step p e st :
  tunnel_wf st →
  (length (kills p (step e st).2) + kill_budget p (step e st).1
   ≤ kill_budget p st)%nat.
Proof.
  intros Hwf. pose proof Hwf as [Hs Hc]. unfold kill_budget.
  assert (Hnone : handlers st !! p = None → tunnelProcess st ≠ Some p).
  { intros Hp Ht. apply Hc in Ht as [c Ht]. congruence. }
  assert (Hins : ∀ q c c',
            handlers st !! q = Some c →
            match <[q:=c']> (handlers st) !! p with
            | Some _ => 0%nat | None => 1%nat end
            = match handlers st !! p with
              | Some _ => 0%nat | None => 1%nat end).
  { intros q c c' Hq. destruct (decide (q = p)) as [->|Hne].
    - by rewrite lookup_insert_eq, Hq.
    - by rewrite lookup_insert_ne. }
  destruct e as [|q m|q|q|q code| |cb]; simpl.
  - destruct (decide (size (handlers st) = p)) as [<-|Hne].
    + rewrite decide_True by done.
      pose proof (fresh_handler st Hwf) as Hf. specialize (Hnone Hf).
      rewrite decide_False by done. unfold proc in *. rewrite Hf. lia.
    + rewrite decide_False by congruence.
      rewrite lookup_insert_ne by done.
      case_decide; [|lia]. destruct (handlers st !! p); lia.
  - unfold on_output.
    destruct (handlers st !! q) as [c|] eqn:Hq; [|simpl; lia].
    destruct m as [url|]; [|simpl; lia].
    destruct (urlFound c); [simpl; lia|]. simpl.
    rewrite (Hins _ _ _ Hq). lia.
  - unfold on_timeout.
    destruct (handlers st !! q) as [c|] eqn:Hq; [|simpl; lia].
    destruct (timerPending c); [|simpl; lia].
    destruct (urlFound c); simpl; [rewrite (Hins _ _ _ Hq); lia|].
    unfold stopTunnel, set_closure. simpl.
    destruct (tunnelProcess st) as [t|] eqn:Ht; simpl.
    + rewrite (Hins _ _ _ Hq).
      destruct (decide (t = p)) as [->|Hne].
      * rewrite (decide_True (P := Some p = Some p)) by done.
        destruct (Hc p eq_refl) as [c' ->]. simpl. lia.
      * rewrite (decide_False (P := Some t = Some p)) by congruence.
        simpl. lia.
    + rewrite (Hins _ _ _ Hq). lia.
  - unfold on_error.
    destruct (handlers st !! q) as [c|] eqn:Hq; [|simpl; lia]. simpl.
    rewrite (Hins _ _ _ Hq). lia.
  - unfold on_close.
    destruct (handlers st !! q) as [c|] eqn:Hq; [|simpl; lia]. simpl.
    assert (kills p
              (if negb (urlFound c) then [Reject q (ExitedWithCode code)]
               else if negb (intentionalStop st)
                    then (fun cb => Crash cb code) <$> crashCallbacks st
                    else []) = []) as ->.
    { destruct (urlFound c), (intentionalStop st); simpl; try done.
      induction (crashCallbacks st) as [|cb l IHl]; [done|]. exact IHl. }
    rewrite (Hins _ _ _ Hq). simpl.
    case_decide as Ht; [|lia].
    destruct (Hc p Ht) as [c' ->]. lia.
  - unfold stopTunnel.
    destruct (tunnelProcess st) as [t|] eqn:Ht; simpl; [|lia].
    destruct (decide (t = p)) as [->|Hne].
    + rewrite (decide_True (P := Some p = Some p)) by done.
      destruct (Hc p eq_refl) as [c' ->]. simpl. lia.
    + rewrite (decide_False (P := Some t = Some p)) by congruence.
      simpl. lia.
  - lia.
Qed.

Lemma kill_budget_run p es : ∀ st,
  tunnel_wf st →
  (length (kills p (run es st).2) ≤ kill_budget p st)%nat.
Proof.
  induction es as [|e es IH]; intros st Hwf; simpl; [lia|].
  pose proof (kill_budget_step p e st Hwf) as Hstep.
  pose proof (tunnel_wf_step e st Hwf) as H1.
  destruct (step e st) as [s1 f1]. specialize (IH s1 H1).
  destruct (run es s1) as [s2 f2]. simpl in *.
  unfold kills in *. rewrite omap_app, length_app. lia.
Qed.

(** X14: over any sequence of events, a tunnel process is sent the
    termination signal at most once, whether by [stopTunnel] or by the
    timeout: the handle is dropped with the signal, and a later start
    names a new process. *)
Theorem X14_process_signalled_at_most_once (es : list Event) (p : proc) :
  (length (kills p (run es initial).2) ≤ 1)%nat.
Proof.
  etrans; [apply kill_budget_run, tunnel_wf_initial|].
  unfold kill_budget. simpl. done.
Qed.

Lemma timer_off_step p e st :
  tunnel_wf st → timer_off p st →
  timer_off p (step e st).1 ∧
  Reject p TimeoutWaitingForUrl ∉ (step e st).2.
Proof.
  intros Hwf (c & Hp & Hoff).
  assert (Hins : ∀ q c' t u k i,
            (q = p → timerPending c' = false) →
            timer_off p {| tunnelProcess := t; tunnelUrl := u;
                           crashCallbacks := k; intentionalStop := i;
                           handlers := <[q:=c']> (handlers st) |}).
  { intros q c' t u k i Hq. unfold timer_off. simpl.
    destruct (decide (q = p)) as [->|Hne].
    - exists c'. rewrite lookup_insert_eq. auto.
    - exists c. by rewrite lookup_insert_ne. }
  assert (Hsame : ∀ t u k i,
            timer_off p {| tunnelProcess := t; tunnelUrl := u;
                           crashCallbacks := k; intentionalStop := i;
                           handlers := handlers st |}).
  { intros. by exists c. }
  destruct e as [|q m|q|q|q code| |cb]; simpl.
  - split; [|apply not_elem_of_nil].
    apply Hins. intros E.
    pose proof (fresh_handler st Hwf) as Hf. unfold proc in *. congruence.
  - unfold on_output.
    destruct (handlers st !! q) as [cq|] eqn:Hq;
      [|split; [by exists c|apply not_elem_of_nil]].
    destruct m as [url|]; [|split; [by exists c|apply not_elem_of_nil]].
    destruct (urlFound cq); [split; [by exists c|apply not_elem_of_nil]|].
    simpl. split; [by apply Hins|].
    intros Hin%list_elem_of_singleton. discriminate.
  - unfold on_timeout.
    destruct (handlers st !! q) as [cq|] eqn:Hq;
      [|split; [by exists c|apply not_elem_of_nil]].
    destruct (timerPending cq) eqn:Hpend;
      [|split; [by exists c|apply not_elem_of_nil]].
    assert (q ≠ p) as Hne by (intros ->; congruence).
    destruct (urlFound cq); simpl.
    + split; [by apply Hins|apply not_elem_of_nil].
    + unfold stopTunnel, set_closure. simpl.
      destruct (tunnelProcess st); simpl.
      * split; [by apply Hins|].
        intros [E|[E|E%not_elem_of_nil]%elem_of_cons]%elem_of_cons;
          [congruence|discriminate|done].
      * split; [by apply Hins|].
        intros [E|E%not_elem_of_nil]%elem_of_cons; [congruence|done].
  - unfold on_error.
    destruct (handlers st !! q) as [cq|] eqn:Hq;
      [|split; [by exists c|apply not_elem_of_nil]].
    simpl. split; [by apply Hins|].
    intros Hin%list_elem_of_singleton. discriminate.
  - unfold on_close.
    destruct (handlers st !! q) as [cq|] eqn:Hq;
      [|split; [by exists c|apply not_elem_of_nil]].
    simpl. split.
    + apply Hins. intros ->.
      destruct (urlFound cq); simpl; [congruence|done].
    + destruct (urlFound cq), (intentionalStop st); simpl.
      * apply not_elem_of_nil.
      * intros (cb & E & _)%list_elem_of_fmap. discriminate.
      * intros Hin%list_elem_of_singleton. discriminate.
      * intros Hin%list_elem_of_singleton. discriminate.
  - unfold stopTunnel. destruct (tunnelProcess st); simpl.
    + split; [apply Hsame|].
      intros Hin%list_elem_of_singleton. discriminate.
    + split; [apply Hsame|apply not_elem_of_nil].
  - split; [apply Hsame|apply not_elem_of_nil].
Qed.

Lemma timer_off_run p es : ∀ st,
  tunnel_wf st → timer_off p st →
  Reject p TimeoutWaitingForUrl ∉ (run es st).2.
Proof.
  induction es as [|e es IH]; intros st Hwf Hoff; simpl;
    [apply not_elem_of_nil|].
  destruct (timer_off_step p e st Hwf Hoff) as [H1 H2].
  pose proof (tunnel_wf_step e st Hwf) as Hwf1.
  destruct (step e st) as [s1 f1]. specialize (IH s1 Hwf1 H1).
  destruct (run es s1) as [s2 f2]. simpl in *.
  intros [?|?]%elem_of_app; auto.
Qed.

(** The step that resolves the promise of [p] does nothing else and
    leaves the timer of [p] cleared. *)
Lemma resolve_step p url e st :
  Resolve p url ∈ (step e st).2 →
  (step e st).2 = [Resolve p url] ∧ timer_off p (step e st).1.
Proof.
  destruct e as [|q m|q|q|q code| |cb]; simpl.
  - by intros ?%not_elem_of_nil.
  - unfold on_output.
    destruct (handlers st !! q) as [cq|] eqn:Hq;
      [|by intros ?%not_elem_of_nil].
    destruct m as [u|]; [|by intros ?%not_elem_of_nil].
    destruct (urlFound cq); [by intros ?%not_elem_of_nil|]. simpl.
    intros [= <- <-]%list_elem_of_singleton. split; [done|].
    eexists. simpl. split; [apply lookup_insert_eq|done].
  - unfold on_timeout.
    destruct (handlers st !! q) as [cq|]; [|by intros ?%not_elem_of_nil].
    destruct (timerPending cq); [|by intros ?%not_elem_of_nil].
    destruct (urlFound cq); simpl; [by intros ?%not_elem_of_nil|].
    unfold stopTunnel, set_closure. simpl.
    destruct (tunnelProcess st); simpl.
    + intros [E|[E|E%not_elem_of_nil]%elem_of_cons]%elem_of_cons;
        [discriminate|discriminate|done].
    + intros [E|E%not_elem_of_nil]%elem_of_cons; [discriminate|done].
  - unfold on_error.
    destruct (handlers st !! q) as [cq|]; [|by intros ?%not_elem_of_nil].
    simpl. intros Hin%list_elem_of_singleton. discriminate.
  - unfold on_close.
    destruct (handlers st !! q) as [cq|]; [|by intros ?%not_elem_of_nil].
    simpl. destruct (urlFound cq), (intentionalStop st); simpl.
    + by intros ?%not_elem_of_nil.
    + intros (cb & E & _)%list_elem_of_fmap. discriminate.
    + intros Hin%list_elem_of_singleton. discriminate.
    + intros Hin%list_elem_of_singleton. discriminate.
  - unfold stopTunnel. destruct (tunnelProcess st); simpl.
    + intros Hin%list_elem_of_singleton. discriminate.
    + by intros ?%not_elem_of_nil.
  - by intros ?%not_elem_of_nil.
Qed.

Lemma no_timeout_after_resolve p url es : ∀ st fx1 fx2,
  tunnel_wf st →
  (run es st).2 = fx1 ++ Resolve p url :: fx2 →
  Reject p TimeoutWaitingForUrl ∉ fx2.
Proof.
  induction es as [|e es IH]; intros st fx1 fx2 Hwf Hfx; simpl in Hfx.
  { by destruct fx1. }
  pose proof (tunnel_wf_step e st Hwf) as Hwf1.
  pose proof (resolve_step p url e st) as Hres.
  pose proof (timer_off_run p es (step e st).1 Hwf1) as Hrun.
  specialize (IH (step e st).1).
  destruct (step e st) as [s1 f1]. simpl in IH, Hrun, Hres, Hwf1.
  destruct (run es s1) as [s2 f2]. simpl in *.
  apply app_eq_app in Hfx as [l [[Hf1 Hf2]|[Hf1 Hf2]]].
  - destruct l as [|x l]; simpl in Hf2.
    + apply (IH [] fx2 Hwf1). by rewrite <- Hf2.
    + injection Hf2 as <- ->. subst f1.
      destruct Hres as [Hone Hoff].
      { apply elem_of_app. right. apply elem_of_cons. by left. }
      assert (fx1 = [] ∧ l = []) as [-> ->].
      { destruct fx1 as [|y [|z fx1]]; simpl in Hone.
        - by injection Hone as ->.
        - discriminate.
        - discriminate. }
      simpl. by apply Hrun.
  - apply (IH l fx2 Hwf1). exact Hf2.
Qed.

(** X13: once the start promise of a tunnel process has been resolved
    with a URL, the 30 s timer never rejects it, whatever happens next:
    resolving clears the timer. *)
Theorem X13_no_timeout_after_url (es : list Event) (p : proc)
    (url : jsstring) (fx1 fx2 : list Effect)
    (Hrun : (run es initial).2 = fx1 ++ Resolve p url :: fx2) :
  Reject p TimeoutWaitingForUrl ∉ fx2.
Proof.
  exact (no_timeout_after_resolve p url es initial fx1 fx2
           tunnel_wf_initial Hrun).
Qed.

Lemma X13_witness :
  (run (url_twice ++ [EvTimeout 0%nat; EvStop]) initial).2
    = [] ++ Resolve 0%nat (str "https://a-b.trycloudflare.com")
            :: [Kill 0%nat] ∧
  Reject 0%nat TimeoutWaitingForUrl ∉ [Kill 0%nat].
Proof.
  split; [vm_compute; reflexivity|].
  apply (X13_no_timeout_after_url (url_twice ++ [EvTimeout 0%nat; EvStop])
           0%nat (str "https://a-b.trycloudflare.com") []).
  vm_compute. reflexivity.
Defined.

End TunnelRuns.

(** ** The session after its teardown *)

Section Teardown.
Import Session.

Lemma cleanup_dismantles st :
  cleaningUp st = false → dismantled (cleanup st).
Proof.
  intros G. unfold cleanup. rewrite G.
  unfold WebServer.stopWebServer, Tunnel.stopTunnel, Pty.killPTY.
  destruct (Tunnel.tunnelProcess (tunnel st)), (Pty.ptyProcess (pty st));
    simpl; (split_and!; try done);
    apply map_eq; intros ws; rewrite lookup_empty;
    apply map_lookup_filter_None; right; intros ci _; simpl;
    apply not_elem_of_empty.
Qed.

Lemma fire_after_teardown is_open t st :
  cleaningUp st = true → dismantled st →
  cleaningUp (fire is_open t st) = true ∧
  dismantled (fire is_open t st) ∧
  session_trace (fire is_open t st) = session_trace st.
Proof.
  intros G D. pose proof D as (Hp & Hd & He & Hr & Hsl & Hrl & Hc & Hb & Ht & Hk).
  destruct t as [| |code|p code|]; simpl.
  - destruct (onSIGINT st); [|done].
    unfold cleanup. simpl. by rewrite G.
  - destruct (onSIGTERM st); [|done].
    unfold cleanup. simpl. by rewrite G.
  - rewrite He. simpl. split; [done|]. split; [|done].
    unfold dismantled. simpl. by split_and!.
  - split; [done|]. split; [|done].
    unfold dismantled. simpl. split_and!; try done.
    + unfold Tunnel.on_close.
      by destruct (Tunnel.handlers (tunnel st) !! p).
    + unfold Tunnel.on_close.
      by destruct (Tunnel.handlers (tunnel st) !! p).
  - unfold cleanup. by rewrite G.
Qed.

Lemma run_after_teardown is_open ts : ∀ st,
  cleaningUp st = true → dismantled st →
  dismantled (run is_open ts st) ∧
  session_trace (run is_open ts st) = session_trace st.
Proof.
  unfold run. induction ts as [|t ts IH]; intros st G D; simpl; [done|].
  destruct (fire_after_teardown is_open t st G D) as (G1 & D1 & T1).
  destruct (IH _ G1 D1) as [D2 T2]. split; [done|]. by rewrite T2.
Qed.

(** X15: once the teardown has run on a session, every module is
    dismantled (no PTY handle, no callbacks or listeners, no client, no
    retained output, no tunnel handle), and it stays so: whatever signals
    and exits arrive later, nothing more is sent to a client, no PTY
    handle is called, and no teardown call is repeated. *)
Theorem X15_nothing_acts_after_teardown (is_open : WebServer.conn → bool)
    (ts : list Trigger) (st : State) (Hfirst : cleaningUp st = false) :
  dismantled (run is_open ts (cleanup st)) ∧
  session_trace (run is_open ts (cleanup st)) = session_trace (cleanup st).
Proof.
  apply run_after_teardown.
  - apply cleanup_sets_guard.
  - by apply cleanup_dismantles.
Qed.

Lemma X15_witness :
  cleaningUp running_session = false ∧
  dismantled (run (fun _ => true) [PtyExited 0; TunnelClosed 0%nat None; SIGINT]
                  (cleanup running_session)) ∧
  session_trace (run (fun _ => true)
                     [PtyExited 0; TunnelClosed 0%nat None; SIGINT]
                     (cleanup running_session))
    = session_trace (cleanup running_session).
Proof.
  split; [reflexivity|].
  apply (X15_nothing_acts_after_teardown (fun _ => true)
           [PtyExited 0; TunnelClosed 0%nat None; SIGINT] running_session).
  reflexivity.
Defined.

End Teardown.

(** ** The command line of a session *)

Section CommandLine.
Import Session.

Lemma split_nonempty sep s : split sep s ≠ [].
Proof.
  destruct s as [|u s]; simpl; [done|].
  destruct (N.eqb sep u); [done|]. by destruct (split sep s).
Qed.

Lemma join_cons sep x y a :
  join sep (x :: y :: a) = x ++ sep :: join sep (y :: a).
Proof. done. Qed.

Lemma join_split sep s : join sep (split sep s) = s.
Proof.
  induction s as [|u s IH]; [done|]. cbn [split].
  pose proof (split_nonempty sep s) as Hne.
  destruct (N.eqb sep u) eqn:E.
  - apply N.eqb_eq in E as <-.
    destruct (split sep s) as [|w ws]; [done|].
    by rewrite join_cons, IH.
  - destruct (split sep s) as [|w ws]; [done|].
    destruct ws as [|w' ws].
    + simpl in *. by rewrite IH.
    + rewrite join_cons in *. by rewrite <- IH.
Qed.

Lemma split_space_free sep s :
  Forall (fun w => includes sep w = false) (split sep s).
Proof.
  induction s as [|u s IH]; simpl.
  - by constructor.
  - destruct (N.eqb sep u) eqn:E.
    + by constructor.
    + destruct (split sep s) as [|w ws]; simpl.
      * constructor; [|done]. simpl. by rewrite E.
      * inversion IH as [|? ? Hw Hws]; subst.
        constructor; [|done]. simpl. by rewrite E, Hw.
Qed.

Lemma command_to_run_join proc c0 rest :
  join space ((command_to_run proc (Some (c0 :: rest))).1
                :: (command_to_run proc (Some (c0 :: rest))).2)
    = join space (c0 :: rest).
Proof.
  unfold command_to_run.
  destruct ((length (c0 :: rest) =? 1)%nat && includes space c0) eqn:E;
    [|done].
  apply andb_prop in E as [Hlen _].
  destruct rest; [|done].
  pose proof (join_split space c0) as Hj.
  pose proof (split_nonempty space c0) as Hne.
  destruct (split space c0) as [|p0 ps]; [done|]. exact Hj.
Qed.

(** The program is not empty when the first word starts with something
    other than a space. *)
Lemma command_to_run_program proc u w rest :
  u ≠ space →
  ∃ w', (command_to_run proc (Some ((u :: w) :: rest))).1 = u :: w'.
Proof.
  intros Hu. unfold command_to_run.
  destruct (_ && _); [|by exists w].
  cbn [split]. destruct (N.eqb space u) eqn:E.
  { by apply N.eqb_eq in E. }
  destruct (split space w) as [|p0 ps]; simpl; eauto.
Qed.

(** A program that is not empty reaches node-pty as it is, with its
    arguments. *)
Lemma spawned_words_program proc command c s :
  Pty.spawn_raises proc = false →
  (command_to_run proc command).1 = c :: s →
  spawned_words proc command
    = Some ((command_to_run proc command).1
              :: (command_to_run proc command).2).
Proof.
  intros Hspawn E. unfold spawned_words, spawn_options, Pty.spawnPTY.
  rewrite Hspawn.
  cbn [Pty.opt_command Pty.opt_args Pty.pty_command Pty.pty_args].
  by rewrite E.
Qed.

(** X16: what the session runs is the command line as typed: program
    and arguments, joined by single spaces, give back the words of
    [command] joined by single spaces (the text printed on exit), also
    when a single quoted word was split at its spaces; and for a single
    word, neither the program nor any argument holds a space. *)
Theorem X16_command_line_round_trip (proc : Pty.Process) (c0 : jsstring)
    (rest : list jsstring) :
  join space ((command_to_run proc (Some (c0 :: rest))).1
                :: (command_to_run proc (Some (c0 :: rest))).2)
    = join space (c0 :: rest) ∧
  space_free ((command_to_run proc (Some [c0])).1
                :: (command_to_run proc (Some [c0])).2).
Proof.
  split; [apply command_to_run_join|].
  unfold command_to_run, space_free. simpl.
  destruct (includes space c0) eqn:E.
  - pose proof (split_space_free space c0) as Hf.
    pose proof (split_nonempty space c0) as Hne.
    by destruct (split space c0) as [|p0 ps].
  - simpl. by repeat constructor.
Qed.

(** X17: from the command line to node-pty.  When the first word of the
    command line starts with something other than a space and the spawn
    does not raise, the program and arguments node-pty is given, joined
    by single spaces, are the command line as typed: neither the
    fallback to the shell nor the default arguments of [spawnPTY] come
    into play. *)
Theorem X17_node_pty_gets_the_typed_command (proc : Pty.Process)
    (u : code_unit) (w : jsstring) (rest : list jsstring)
    (Hspawn : Pty.spawn_raises proc = false) (Hu : u ≠ space) :
  join space <$> spawned_words proc (Some ((u :: w) :: rest))
    = Some (join space ((u :: w) :: rest)).
Proof.
  destruct (command_to_run_program proc u w rest Hu) as [w' Hw].
  pose proof (spawned_words_program proc _ u w' Hspawn Hw) as Hs.
  etrans; [exact (f_equal (fmap (join space)) Hs)|].
  cbn [fmap option_fmap option_map]. f_equal.
  exact (command_to_run_join proc (u :: w) rest).
Qed.

Lemma X17_witness :
  Pty.spawn_raises node_process = false ∧
  join space <$> spawned_words node_process (Some [str "claude --resume"])
    = Some (join space [str "claude --resume"]).
Proof.
  split; [reflexivity|].
  apply (X17_node_pty_gets_the_typed_command node_process 99%N
           (str "laude --resume") []); [reflexivity|done].
Defined.

(** A command line that starts with a space runs the shell, with the
    words after the space as its arguments. *)
Example leading_space_runs_the_shell :
  spawned_words node_process (Some [str " vim"])
    = Some [str_or (Pty.env_SHELL node_process) (str "/bin/sh"); str "vim"].
Proof. vm_compute. done. Qed.

(** A quoted command is split; separate words are passed as they are. *)
Example command_lines :
  command_to_run node_process (Some [str "claude --resume"])
    = (str "claude", [str "--resume"]) ∧
  command_to_run node_process (Some [str "claude"; str "-p"; str "a b"])
    = (str "claude", [str "-p"; str "a b"]) ∧
  command_to_run node_process (Some [str "a  b"])
    = (str "a", [str ""; str "b"]) ∧
  (command_to_run node_process None).2 = [] ∧
  (command_to_run node_process (Some [])).2 = [].
Proof. vm_compute. done. Qed.

End CommandLine.

(** ** Input from clients *)

Section Input.
Import WebServer.

Lemma written_app c1 c2 : written (c1 ++ c2) = written c1 ++ written c2.
Proof. apply omap_app. Qed.

Lemma inputs_cons e es : inputs (e :: es) = inputs [e] ++ inputs es.
Proof. apply (omap_app _ [e] es). Qed.

Lemma written_resizePTY c r pty :
  written (Pty.calls (Pty.resizePTY c r pty)) = written (Pty.calls pty).
Proof.
  unfold Pty.resizePTY. destruct (Pty.ptyProcess pty); [|done]. simpl.
  rewrite written_app. simpl. by rewrite app_nil_r.
Qed.

Lemma written_applyMinSize st pty :
  written (Pty.calls (applyMinSize st pty)) = written (Pty.calls pty).
Proof.
  unfold applyMinSize. case_decide; [apply written_resizePTY|].
  destruct (_ && _); [apply written_resizePTY|done].
Qed.

Lemma written_step e s :
  ∃ l, written (Pty.calls (step e s).1.2) = written (Pty.calls s.2) ++ l ∧
       l `sublist_of` inputs [e].
Proof.
  assert (Hnone : ∀ p : Pty.State,
            written (Pty.calls p) = written (Pty.calls s.2) →
            ∃ l, written (Pty.calls p) = written (Pty.calls s.2) ++ l ∧
                 l `sublist_of` inputs [e]).
  { intros p ->. exists []. split; [by rewrite app_nil_r|apply sublist_nil_l]. }
  destruct s as [st pty]. destruct e as [n0 n ws|n ws msg|ws|ws|o ch|o code| |];
    simpl step.
  - destruct (on_connection n0 n ws st). by apply Hnone.
  - unfold on_message. destruct (closures st !! ws) as [c|]; [|by apply Hnone].
    destruct (rate_check n c) as [c' pass]. destruct pass; [|by apply Hnone].
    unfold dispatch.
    destruct msg as [ls|[d|]|[cs|] [rs|]|[|]| |]; try (by apply Hnone).
    + destruct (synced (clientInfo c')); by apply Hnone.
    + simpl. unfold Pty.writeToPTY.
      destruct (Pty.ptyProcess pty); [|by apply Hnone]. simpl.
      exists [d]. by rewrite written_app.
    + destruct (_ && _); [|by apply Hnone].
      apply Hnone. apply written_applyMinSize.
  - by apply Hnone.
  - unfold on_ws_close. destruct (closures st !! ws); [|by apply Hnone].
    apply Hnone. apply written_applyMinSize.
  - destruct (onPTYData_handler o ch st). by apply Hnone.
  - by apply Hnone.
  - apply Hnone. apply written_applyMinSize.
  - by apply Hnone.
Qed.

Lemma written_run es : ∀ s,
  ∃ l, written (Pty.calls (run es s).1.2) = written (Pty.calls s.2) ++ l ∧
       l `sublist_of` inputs es.
Proof.
  induction es as [|e es IH]; intros s.
  { exists []. split; [by rewrite app_nil_r|done]. }
  rewrite inputs_cons. cbn [run].
  destruct (written_step e s) as (l1 & H1 & S1).
  destruct (step e s) as [s1 f1]. destruct (IH s1) as (l2 & H2 & S2).
  destruct (run es s1) as [s2 f2]. cbn [fst snd] in *.
  exists (l1 ++ l2). split.
  - by rewrite H2, H1, app_assoc.
  - by apply sublist_app.
Qed.

(** X18: the relay writes to the PTY nothing but what clients sent as
    [input]: over any sequence of events, the texts written are input
    texts of the events, in the order of their arrival and each at
    most once (frames over the rate limit, frames for no live PTY and
    frames of unknown sockets are the ones left out). *)
Theorem X18_only_client_input_is_written (es : list Event) (st : State)
    (pty : Pty.State) :
  ∃ l, written (Pty.calls (run es (st, pty)).1.2)
         = written (Pty.calls pty) ++ l ∧
       l `sublist_of` inputs es.
Proof. apply (written_run es (st, pty)). Qed.

(** What the one connected client types reaches the PTY, in order; the
    frame of the unknown socket does not. *)
Example typing_is_written :
  written (Pty.calls (run typing (initial, live_pty)).1.2)
    = [str "l"; str "s"].
Proof. vm_compute. done. Qed.

End Input.

(** ** The terminal-context API *)

Section TerminalContext.
Import WebServer.

(** X19: the reply of the terminal-context API holds at most 50 chunks,
    all of them when the log is shorter, and their text is a suffix of
    the text the PTY has emitted since the relay was last stopped: the
    most recent output, unaltered. *)
Theorem X19_context_is_recent_output (es : list Event) (pty : Pty.State) :
  length (recentOutput (terminal_context (after es pty)))
    = (bufferLength (terminal_context (after es pty))
         `min` CONTEXT_API_ENTRIES)%nat ∧
  concat (recentOutput (terminal_context (after es pty)))
    `suffix_of` concat (emitted es).
Proof.
  unfold terminal_context, slice_last. simpl. split.
  - rewrite length_fmap, length_drop. lia.
  - etrans; [apply concat_data_drop|].
    apply (log_text_run es (initial, pty) []). apply suffix_nil.
Qed.

End TerminalContext.
